(** * Orbital front end: Kepler solver and rollout analytics

    A shallow embedding of the numerical core of the orbital viewer:
    - [Kepler]: [keplerE] and the per-planet set-up of [Planets]
      (src/Scene3D.jsx);
    - [Analytics]: [stationKeepingErrors] and the per-episode pass of
      [useRollout] (src/App.jsx, first version, "robust capture").

    JavaScript numbers are modelled as real numbers: [Math.sin], [Math.cos],
    [Math.sqrt], [Math.hypot] are the real functions, rounding is left out.
    Division and square root are total on the reals: where the code would
    divide by zero or take the root of a negative number it yields
    [Infinity] or [NaN], and the theorems that reach such an operation carry
    the hypotheses that keep it regular ([a > 0], [|e| < 1], [r <> 0]).
    Loop counters, frame indices and counts are integers ([Z] or [nat]).
    A field that a JSON record may lack is an [option]; [x ?? d] is
    [nullish]. *)

From Stdlib Require Import Reals Lra Lia ZArith List Bool Sorted.
Import ListNotations.

Local Open Scope R_scope.

(** ** JavaScript helpers shared by both modules *)

(** [x ?? d] *)
Definition nullish {A : Type} (x : option A) (d : A) : A :=
  match x with
  | Some v => v
  | None => d
  end.

(** Comparisons of numbers, as booleans. *)
Definition Rle_b (x y : R) : bool := if Rle_dec x y then true else false.
Definition Rlt_b (x y : R) : bool := if Rlt_dec x y then true else false.
Definition Rgt_b (x y : R) : bool := Rlt_b y x.

(** Truncation toward zero, and the remainder [x % y] of JavaScript, whose
    sign is the sign of the dividend: [x - y * trunc (x / y)]. *)
Definition Rtrunc (x : R) : Z :=
  if Rle_dec 0 x then Int_part x else (- Int_part (- x))%Z.

Definition js_rem (x y : R) : R := x - y * IZR (Rtrunc (x / y)).

(** [Math.atan2(y, x)]: the angle of the point [(x, y)], in (-pi, pi]. *)
Definition atan2 (y x : R) : R :=
  if Rlt_dec 0 x then atan (y / x)
  else if Rlt_dec x 0 then
    if Rle_dec 0 y then atan (y / x) + PI else atan (y / x) - PI
  else if Rlt_dec 0 y then PI / 2
  else if Rlt_dec y 0 then - (PI / 2)
  else 0.

(** ** Kepler solver and planet set-up (src/Scene3D.jsx) *)

Module Kepler.

(** One round of the loop body of [keplerE]:
    [f = E - e sin E - M; fp = 1 - e cos E; E -= f / fp]. *)
Definition newton_f (M e E : R) : R := E - e * sin E - M.
Definition newton_fp (e E : R) : R := 1 - e * cos E.
Definition newton_update (M e E : R) : R := E - newton_f M e E / newton_fp e E.

(** [for (let k = 0; k < 8; k++) { ... }], by the number of rounds left. *)
Fixpoint newton_rounds (M e : R) (rounds : nat) (E : R) : R :=
  match rounds with
  | O => E
  | S rounds' => newton_rounds M e rounds' (newton_update M e E)
  end.

Definition keplerE (M e : R) : R := newton_rounds M e 8 M.

(** The same loop as a machine: a state holds the counter [k] and [E]; a step
    tests [k < 8], runs the body and increments [k]; the loop is left when no
    step applies. *)
Record loop_state : Type := LoopState { ls_k : nat; ls_E : R }.

Definition loop_init (M : R) : loop_state := LoopState 0 M.

Definition loop_step (M e : R) (s : loop_state) : option loop_state :=
  if (ls_k s <? 8)%nat
  then Some (LoopState (S (ls_k s)) (newton_update M e (ls_E s)))
  else None.

(** [loop_run M e n s]: the state after exactly [n] steps from [s], if the
    loop takes that many. *)
Fixpoint loop_run (M e : R) (n : nat) (s : loop_state) : option loop_state :=
  match n with
  | O => Some s
  | S n' =>
      match loop_step M e s with
      | Some s' => loop_run M e n' s'
      | None => None
      end
  end.

(** The value of [E] on entry to round [k]. *)
Definition iterate (M e : R) (k : nat) : R := Nat.iter k (newton_update M e) M.

(** [keplerE] with the division made partial: [None] as soon as a round
    would divide by zero. *)
Definition div_checked (x y : R) : option R :=
  if Req_dec_T y 0 then None else Some (x / y).

Fixpoint newton_rounds_checked (M e : R) (rounds : nat) (E : R) : option R :=
  match rounds with
  | O => Some E
  | S rounds' =>
      match div_checked (newton_f M e E) (newton_fp e E) with
      | Some q => newton_rounds_checked M e rounds' (E - q)
      | None => None
      end
  end.

Definition keplerE_checked (M e : R) : option R := newton_rounds_checked M e 8 M.

(** A planet of the catalogue; angles in degrees. *)
Record planet : Type := Planet {
  p_a : R; p_e : R; p_i : R; p_Omega : R; p_omega : R; p_M0 : R
}.

Definition mu : R := 0.0002959122082855911.
Definition rad : R := PI / 180.

(** [Planets({ ..., eccScale = 1 })]: an absent scale defaults to 1. *)
Definition eccScale_or_default (eccScale : option R) : R := nullish eccScale 1.

(** [const eVis = Math.min(p.e * eccScale, 0.9)] *)
Definition eVis (p : planet) (eccScale : option R) : R :=
  Rmin (p_e p * eccScale_or_default eccScale) 0.9.

(** [const n = Math.sqrt(mu / Math.pow(p.a, 3))] *)
Definition mean_motion (p : planet) : R := sqrt (mu / p_a p ^ 3).

(** [const M = (p.M0 * rad + n * tDays) % (2 * Math.PI)] *)
Definition mean_anomaly_raw (p : planet) (tDays : R) : R :=
  p_M0 p * rad + mean_motion p * tDays.

Definition mean_anomaly (p : planet) (tDays : R) : R :=
  js_rem (mean_anomaly_raw p tDays) (2 * PI).

(** The argument of [elementsToPositionAU]; angles in radians. *)
Record elements : Type := Elements {
  el_a : R; el_e : R; el_i : R; el_Omega : R; el_omega : R; el_M : R
}.

(** [elementsToPositionAU] after its first line: the position for a given
    eccentric anomaly [E]. *)
Definition position_of_E (el : elements) (E : R) : R * R * R :=
  let a := el_a el in
  let e := el_e el in
  let cosE := cos E in
  let sinE := sin E in
  let nu := atan2 (sqrt (1 - e * e) * sinE) (cosE - e) in
  let r_orb := a * (1 - e * cosE) in
  let x_orb := r_orb * cos nu in
  let y_orb := r_orb * sin nu in
  let cosO := cos (el_Omega el) in
  let sinO := sin (el_Omega el) in
  let cosi := cos (el_i el) in
  let sini := sin (el_i el) in
  let cosw := cos (el_omega el) in
  let sinw := sin (el_omega el) in
  let X1 := cosw * x_orb - sinw * y_orb in
  let Y1 := sinw * x_orb + cosw * y_orb in
  let X2 := X1 in
  let Y2 := cosi * Y1 in
  let Z2 := sini * Y1 in
  let x := cosO * X2 - sinO * Y2 in
  let y := sinO * X2 + cosO * Y2 in
  let z := Z2 in
  (x, y, z).

(** [function elementsToPositionAU({ a, e, i, Omega, omega, M })]; its first
    line is [const E = keplerE(M, e)]. *)
Definition elementsToPositionAU (el : elements) : R * R * R :=
  let E := keplerE (el_M el) (el_e el) in
  position_of_E el E.

(** The record [Planets] hands to [elementsToPositionAU] for the mean
    anomaly [M]: [{ a: p.a, e: eVis, i: p.i*rad, Omega: p.Omega*rad,
    omega: p.omega*rad, M }]. *)
Definition planet_elements (p : planet) (eccScale : option R) (M : R) : elements :=
  Elements (p_a p) (eVis p eccScale) (p_i p * rad) (p_Omega p * rad)
    (p_omega p * rad) M.

Definition scale3 (scaleAU : R) (u : R * R * R) : R * R * R :=
  let '(x, y, z) := u in (x * scaleAU, y * scaleAU, z * scaleAU).


(** [const path = [...Array(360)].map((_, k) => { const th = (2 * Math.PI * k)
    / 360; ... })] *)
Definition planet_path (p : planet) (scaleAU : R) (eccScale : option R)
    : list (R * R * R) :=
  map (fun k =>
         let th := 2 * PI * INR k / 360 in
         scale3 scaleAU (elementsToPositionAU (planet_elements p eccScale th)))
      (seq 0 360).

End Kepler.

(** ** Rollout analytics (src/App.jsx: [stationKeepingErrors], [useRollout]) *)

Module Analytics.

Definition vec3 : Type := (R * R * R)%type.

(** [Math.hypot(x, y, z)] *)
Definition hypot3 (u : vec3) : R :=
  let '(x, y, z) := u in sqrt (x * x + y * y + z * z).

Definition dot3 (u w : vec3) : R :=
  let '(ux, uy, uz) := u in
  let '(wx, wy, wz) := w in
  ux * wx + uy * wy + uz * wz.

(** One frame of an episode: [r] and [v] are always there, the other fields
    may be absent. *)
Record frame : Type := Frame {
  f_r : vec3;
  f_v : vec3;
  f_thrust : option vec3;
  f_reward : option R;
  f_pos_err : option R;
  f_v_tan_err : option R
}.

Record sk_errors : Type := SkErrors {
  sk_rmag : R; sk_pos_err : R; sk_v_rad : R;
  sk_v_tan : R; sk_v_tan_err : R; sk_v_circ : R
}.

(** [function stationKeepingErrors(frame, R0 = 1.0)] *)
Definition stationKeepingErrors (fr : option frame) (R0 : R) : option sk_errors :=
  match fr with
  | None => None
  | Some fr =>
      let r := f_r fr in
      let v := f_v fr in
      let rmag := hypot3 r in
      let '(rx, ry, rz) := r in
      let r_hat := (rx / (rmag + 1e-9), ry / (rmag + 1e-9), rz / (rmag + 1e-9)) in
      let v_rad := dot3 v r_hat in
      let vmag := hypot3 v in
      let v_tan := sqrt (Rmax 0 (vmag * vmag - v_rad * v_rad)) in
      let mu := 1.0 in
      let v_circ := sqrt (mu / Rmax 1e-9 R0) in
      Some (SkErrors rmag (rmag - R0) v_rad v_tan (v_tan - v_circ) v_circ)
  end.

Inductive event_type : Type := thrust | entered_tol.

Record event : Type := Event { ev_t : Z; ev_type : event_type }.

Record point : Type := Point { pt_x : Z; pt_y : R }.

Record spark : Type := Spark {
  sp_reward : list point; sp_fuel : list point;
  sp_posErr : list point; sp_vTanErr : list point
}.

(** The variables of the per-episode closure that [forEach] updates. *)
Record state : Type := State {
  rewardSum : R;
  fuelSum : R;
  capturedAt : option Z;
  inTolCount : Z;
  events : list event;
  sparkOf : spark;
  tolStreak : Z;
  seenOut : bool
}.

(** What [eps.map] returns for one episode. *)
Record metrics : Type := Metrics {
  m_rewardSum : R;
  m_fuelSum : R;
  m_capturedAt : option Z;
  m_events : list event;
  m_len : Z;
  m_pctInTol : R;
  m_spark : spark
}.

(** [const K = 30] *)
Definition K : Z := 30.

Definition init : state :=
  State 0 0 None 0%Z [] (Spark [] [] [] []) 0%Z false.

(** [arr.forEach((f, idx) => ...)], the closure variables threaded as [st]. *)
Fixpoint forEach_from {S A : Type} (body : S -> A -> Z -> S)
    (l : list A) (idx : Z) (st : S) : S :=
  match l with
  | [] => st
  | f :: l' => forEach_from body l' (idx + 1)%Z (body st f idx)
  end.

Section Engine.

(** [useRollout(url, tolR = 0.05, tolV = 0.05, thrustSpike = 0.02)] *)
Variables tolR tolV thrustSpike : R.

(** [const thr = f.thrust ? Math.hypot(...f.thrust) : 0] *)
Definition thr_of (f : frame) : R :=
  match f_thrust f with
  | Some u => hypot3 u
  | None => 0
  end.

(** [const posErr = f.pos_err ?? (Math.hypot(...f.r) - 1.0)] *)
Definition posErr_of (f : frame) : R :=
  nullish (f_pos_err f) (hypot3 (f_r f) - 1.0).

(** [const vtanErr = f.v_tan_err ?? (() => { const er =
    stationKeepingErrors(f, 1.0); return er?.v_tan_err ?? 0; })()] *)
Definition vtanErr_of (f : frame) : R :=
  match f_v_tan_err f with
  | Some x => x
  | None =>
      let er := stationKeepingErrors (Some f) 1.0 in
      nullish (option_map sk_v_tan_err er) 0
  end.

(** [thr > thrustSpike] *)
Definition spike (f : frame) : bool := Rgt_b (thr_of f) thrustSpike.

(** [const inTol = posErr <= tolR && Math.abs(vtanErr) <= tolV] *)
Definition inTol (f : frame) : bool :=
  Rle_b (posErr_of f) tolR && Rle_b (Rabs (vtanErr_of f)) tolV.

(** The body of [frames.forEach((f, idx) => { ... })]. *)
Definition body (st : state) (f : frame) (idx : Z) : state :=
  let thr := thr_of f in
  let posErr := posErr_of f in
  let vtanErr := vtanErr_of f in
  let rewardSum1 := rewardSum st + nullish (f_reward f) 0 in
  let fuelSum1 := fuelSum st + thr in
  let events1 :=
    if Rgt_b thr thrustSpike then events st ++ [Event idx thrust] else events st in
  let st2 :=
    if inTol f then
      let inTolCount1 := (inTolCount st + 1)%Z in
      let tolStreak1 := (tolStreak st + 1)%Z in
      match capturedAt st with
      | None =>
          if seenOut st && (K <=? tolStreak1)%Z then
            let c := (idx - K + 1)%Z in
            State rewardSum1 fuelSum1 (Some c) inTolCount1
              (events1 ++ [Event c entered_tol]) (sparkOf st) tolStreak1 (seenOut st)
          else
            State rewardSum1 fuelSum1 None inTolCount1 events1 (sparkOf st)
              tolStreak1 (seenOut st)
      | Some c =>
          State rewardSum1 fuelSum1 (Some c) inTolCount1 events1 (sparkOf st)
            tolStreak1 (seenOut st)
      end
    else
      State rewardSum1 fuelSum1 (capturedAt st) (inTolCount st) events1
        (sparkOf st) 0%Z true in
  let sp := sparkOf st2 in
  let sp1 :=
    Spark (sp_reward sp ++ [Point idx (nullish (f_reward f) 0)])
          (sp_fuel sp ++ [Point idx thr])
          (sp_posErr sp ++ [Point idx posErr])
          (sp_vTanErr sp ++ [Point idx vtanErr]) in
  State (rewardSum st2) (fuelSum st2) (capturedAt st2) (inTolCount st2)
    (events st2) sp1 (tolStreak st2) (seenOut st2).

Definition run (frames : list frame) : state := forEach_from body frames 0%Z init.

(** [eps.map((frames) => { ...; return { rewardSum, fuelSum, capturedAt,
    events, len, pctInTol, spark }; })], for one episode. *)
Definition episode_metrics (frames : list frame) : metrics :=
  let st := run frames in
  let len := Z.of_nat (length frames) in
  let pctInTol := if (0 <? len)%Z then IZR (inTolCount st) / IZR len else 0 in
  Metrics (rewardSum st) (fuelSum st) (capturedAt st) (events st) len pctInTol
    (sparkOf st).

(** [const mets = eps.map(...)] *)
Definition mets (eps : list (list frame)) : list metrics :=
  map episode_metrics eps.

(** *** The discrete part of the pass

    The body reads a frame's numbers only through the two tests [thr >
    thrustSpike] and [inTol]; [core_body] is the body restricted to the
    counters, the flag, [capturedAt] and the event list, driven by the two
    tests. [core_of_body] below shows that [body] acts on these fields
    exactly as [core_body] does. *)
Record obs : Type := Obs { o_spike : bool; o_tol : bool }.

Record core : Type := Core {
  c_capturedAt : option Z;
  c_inTolCount : Z;
  c_events : list event;
  c_tolStreak : Z;
  c_seenOut : bool
}.

Definition observe (f : frame) : obs := Obs (spike f) (inTol f).

Definition core_of (st : state) : core :=
  Core (capturedAt st) (inTolCount st) (events st) (tolStreak st) (seenOut st).

Definition core_init : core := Core None 0%Z [] 0%Z false.

Definition core_body (st : core) (o : obs) (idx : Z) : core :=
  let events1 :=
    if o_spike o then c_events st ++ [Event idx thrust] else c_events st in
  if o_tol o then
    let inTolCount1 := (c_inTolCount st + 1)%Z in
    let tolStreak1 := (c_tolStreak st + 1)%Z in
    match c_capturedAt st with
    | None =>
        if c_seenOut st && (K <=? tolStreak1)%Z then
          let c := (idx - K + 1)%Z in
          Core (Some c) inTolCount1 (events1 ++ [Event c entered_tol])
            tolStreak1 (c_seenOut st)
        else Core None inTolCount1 events1 tolStreak1 (c_seenOut st)
    | Some c => Core (Some c) inTolCount1 events1 tolStreak1 (c_seenOut st)
    end
  else Core (c_capturedAt st) (c_inTolCount st) events1 0%Z true.

Definition core_run (os : list obs) : core := forEach_from core_body os 0%Z core_init.

End Engine.

(** The defaults of [useRollout], as [App] calls it. *)
Definition default_tolR : R := 0.05.
Definition default_tolV : R := 0.05.
Definition default_thrustSpike : R := 0.02.

(** *** Notions used to state the properties of the pass *)

(** [K] as a number of frames. *)
Definition K_nat : nat := Z.to_nat K.

(** Frame [idx] ends [K] consecutive in-tolerance frames that come after an
    out-of-tolerance frame; [tols] lists the classification of the frames. *)
Definition qualifies (tols : list bool) (idx : nat) : Prop :=
  (K_nat <= idx + 1)%nat /\
  (forall j, (idx + 1 - K_nat <= j <= idx)%nat -> nth_error tols j = Some true) /\
  (exists j, (j + K_nat <= idx)%nat /\ nth_error tols j = Some false).

(** The thrust events of frames [idx0], [idx0 + 1], ..., one for each frame
    whose thrust test holds. *)
Fixpoint thrust_events (idx0 : Z) (spikes : list bool) : list event :=
  match spikes with
  | [] => []
  | b :: spikes' =>
      (if b then [Event idx0 thrust] else []) ++ thrust_events (idx0 + 1)%Z spikes'
  end.

Definition is_thrust (ev : event) : bool :=
  match ev_type ev with
  | thrust => true
  | entered_tol => false
  end.

(** Ascending order of frame index along an event list. *)
Definition ascending (evs : list event) : Prop :=
  forall i j a b, (i < j)%nat ->
    nth_error evs i = Some a -> nth_error evs j = Some b -> (ev_t a <= ev_t b)%Z.

Definition Rsum (l : list R) : R := fold_right Rplus 0 l.

(** What the counters of the pass mean once the frames classified as [tols]
    have been read: the flag tells whether a frame was out of tolerance, the
    streak is the number of in-tolerance frames at the end, and [capturedAt]
    is the start of the run that ends at the first qualifying frame. *)
Definition capture_inv (tols : list bool) (st : core) : Prop :=
  (c_seenOut st = true <-> exists j, nth_error tols j = Some false) /\
  (exists s : nat,
     c_tolStreak st = Z.of_nat s /\ (s <= length tols)%nat /\
     (forall j, (length tols - s <= j < length tols)%nat ->
        nth_error tols j = Some true) /\
     ((s < length tols)%nat ->
        nth_error tols (length tols - s - 1) = Some false)) /\
  match c_capturedAt st with
  | None => forall idx, ~ qualifies tols idx
  | Some c =>
      exists idx, qualifies tols idx /\
        (forall j, (j < idx)%nat -> ~ qualifies tols j) /\
        c = (Z.of_nat idx - K + 1)%Z
  end.

(** How the event list is laid out once the frames whose thrust tests are
    [spikes] have been read: the thrust events in frame order, and, after a
    capture at [c], the [entered_tol] event placed behind the thrust events
    of the frames up to [c + K - 1], the frame at which it was detected. *)
Definition events_inv (spikes : list bool) (st : core) : Prop :=
  match c_capturedAt st with
  | None => c_events st = thrust_events 0 spikes
  | Some c =>
      exists pre post,
        spikes = pre ++ post /\ Z.of_nat (length pre) = (c + K)%Z /\
        c_events st =
          thrust_events 0 pre ++ [Event c entered_tol] ++ thrust_events (c + K) post
  end.

(** *** Sample frames *)

(** Twice the target radius away: out of tolerance. *)
Definition far_frame : frame := Frame (2, 0, 0) (0, 1, 0) None None None None.

(** On the target circle at circular speed: in tolerance. *)
Definition circ_frame : frame := Frame (1, 0, 0) (0, 1, 0) None None None None.

(** As [circ_frame], with a thrust above the default threshold. *)
Definition burn_frame : frame :=
  Frame (1, 0, 0) (0, 1, 0) (Some (0.03, 0, 0)) None None None.

(** As [circ_frame], with a thrust below the default threshold. *)
Definition coast_frame : frame :=
  Frame (1, 0, 0) (0, 1, 0) (Some (0.01, 0, 0)) None None None.

(** Half the radius of the unit circle away from the origin, with the two
    errors precomputed upstream, the position error against a mission
    target radius of 0.4. *)
Definition inner_frame : frame :=
  Frame (0.5, 0, 0) (0, 1, 0) None None (Some 0.1) (Some 0).

(** At the origin, tangential error precomputed. *)
Definition origin_frame : frame :=
  Frame (0, 0, 0) (0, 1, 0) None None None (Some 0).

(** An excursion followed by a capture, without thrust. *)
Definition quiet_capture : list frame := far_frame :: repeat circ_frame 30.

(** The same with a burn on the frame at which the capture is detected. *)
Definition late_burn : list frame :=
  far_frame :: repeat circ_frame 29 ++ [burn_frame].

(** 50 frames out of tolerance, then 50 frames in tolerance. *)
Definition approach : list frame := repeat far_frame 50 ++ repeat circ_frame 50.

End Analytics.

(** ** State-vector utilities of the application (src/App.jsx) *)

Module Orbit.
Import Analytics.

(** [const vecLen = (v) => Math.hypot(v[0], v[1], v[2])] *)
Definition vecLen (v : vec3) : R := hypot3 v.

(** [const cross = (a, b) => [a[1]*b[2]-a[2]*b[1], a[2]*b[0]-a[0]*b[2],
    a[0]*b[1]-a[1]*b[0]]] *)
Definition cross (a b : vec3) : vec3 :=
  let '(a0, a1, a2) := a in
  let '(b0, b1, b2) := b in
  (a1 * b2 - a2 * b1, a2 * b0 - a0 * b2, a0 * b1 - a1 * b0).

Record orbital : Type := Orbital {
  oe_a : R; oe_e : R; oe_hmag : R; oe_energy : R
}.

(** [function orbitalElements(r, v, mu = 1.0)] *)
Definition orbitalElements (r v : vec3) (mu : R) : orbital :=
  let rmag := vecLen r in
  let vmag := vecLen v in
  let h := cross r v in
  let hmag := vecLen h in
  let energy := 0.5 * vmag * vmag - mu / rmag in
  let a := - mu / (2 * energy) in
  let vxh := cross v h in
  let '(vxh0, vxh1, vxh2) := vxh in
  let '(r0, r1, r2) := r in
  let evec := (vxh0 / mu - r0 / rmag, vxh1 / mu - r1 / rmag, vxh2 / mu - r2 / rmag) in
  let e := vecLen evec in
  Orbital a e hmag energy.

End Orbit.

(** ** Scene helpers (src/Scene3D.jsx): [clamp], [Trail], [ThrustVector] *)

Module Scene.
Import Analytics.

(** [const clamp = (x, a, b) => Math.min(Math.max(x, a), b)]; its only call
    has integer arguments. *)
Definition clamp (x a b : Z) : Z := Z.min (Z.max x a) b.

(** [arr[k]] for an integer [k]; [None] is [undefined]. *)
Definition js_nth {A : Type} (arr : list A) (k : Z) : option A :=
  if (k <? 0)%Z then None else nth_error arr (Z.to_nat k).

(** [const frame = frames[clamp(frameIdx, 0, frames.length - 1)] || null] *)
Definition scene_frame (frames : list frame) (frameIdx : Z) : option frame :=
  js_nth frames (clamp frameIdx 0 (Z.of_nat (length frames) - 1)).

(** How a loop may end: with a value, with the [TypeError] of reading a
    property of [undefined], or out of the steps the model allows. *)
Inductive outcome (A : Type) : Type :=
  | Returned (a : A)
  | TypeError
  | OutOfFuel.
Arguments Returned {A} a.
Arguments TypeError {A}.
Arguments OutOfFuel {A}.

(** [for (let i = 0; i < frames.length; i += every) { pts.push(frames[i].r);
    if (pts.length >= maxPoints) break; }], from the state [(i, pts)]. *)
Fixpoint trail_loop (fuel : nat) (frames : list frame) (every maxPoints : Z)
    (i : Z) (pts : list vec3) : outcome (list vec3) :=
  match fuel with
  | O => OutOfFuel
  | S fuel' =>
      if (i <? Z.of_nat (length frames))%Z then
        match js_nth frames i with
        | None => TypeError
        | Some f =>
            let pts1 := pts ++ [f_r f] in
            if (maxPoints <=? Z.of_nat (length pts1))%Z then Returned pts1
            else trail_loop fuel' frames every maxPoints (i + every)%Z pts1
        end
      else Returned pts
  end.

(** The points of [Trail({ frames, every = 2, maxPoints = 2000 })]. The loop
    is given more steps than it can take: [length frames] rounds for a
    stride of at least 1, [maxPoints] rounds for the stride 0, two rounds
    for a negative stride. *)
Definition Trail_points (frames : list frame) (every maxPoints : Z)
    : outcome (list vec3) :=
  trail_loop (length frames + Z.to_nat maxPoints + 2) frames every maxPoints 0 [].

(** Point [k] of a trail is the position of frame [k * every]. *)
Definition sampled (frames : list frame) (every : Z) (pts : list vec3) : Prop :=
  forall k r, nth_error pts k = Some r ->
    exists f, js_nth frames (Z.of_nat k * every) = Some f /\ r = f_r f.

(** [if (points.length < 2) return null] *)
Definition Trail_drawn (points : list vec3) : bool := (2 <=? length points)%nat.

(** [function ThrustVector({ frame, baseScale = 2.0, thrustScale = 50 })]:
    the two ends of the line drawn, [None] when nothing is drawn. *)
Definition ThrustVector (f : frame) (baseScale thrustScale : R) : option (vec3 * vec3) :=
  match f_thrust f with
  | None => None
  | Some u =>
      let p := f_r f in
      let mag := hypot3 u in
      if Rlt_b mag 1e-8 then None
      else
        let s := baseScale * thrustScale in
        let '(p0, p1, p2) := p in
        let '(u0, u1, u2) := u in
        Some (p, (p0 + u0 * s, p1 + u1 * s, p2 + u2 * s))
  end.

End Scene.

(** ** Playback and timeline (src/App.jsx) *)

Module Playback.
Import Analytics.

(** [Math.floor] *)
Definition js_floor (x : R) : Z := Int_part x.

(** [x || y] on numbers: [y] when [x] is 0. *)
Definition num_or (x y : Z) : Z := if (x =? 0)%Z then y else x.

(** [Timeline]: [const pct = (t) => (max > 0 ? (t / max) * 100 : 0)] *)
Definition pct (max t : R) : R := if Rlt_b 0 max then t / max * 100 else 0.

(** [max={Math.max(0, frames.length - 1)}] *)
Definition timeline_max (frames : list frame) : R :=
  Rmax 0 (IZR (Z.of_nat (length frames)) - 1).

(** [tick]: [if (playing && activeFrames > 0) { const increment = dt * 60 *
    speed; setFrameIdx((i) => Math.min(activeFrames - 1, i + increment)); }] *)
Definition tick_frameIdx (playing : bool) (activeFrames : Z) (dt speed : R) (i : R) : R :=
  if playing && (0 <? activeFrames)%Z then
    let increment := dt * 60 * speed in
    Rmin (IZR activeFrames - 1) (i + increment)
  else i.

(** [setFrameIdx((i) => Math.min((frames.length-1)||0, Math.floor(i)+1))] *)
Definition arrowright (len : Z) (i : R) : R :=
  Rmin (IZR (num_or (len - 1) 0)) (IZR (js_floor i) + 1).

(** [setFrameIdx((i) => Math.max(0, Math.floor(i)-1))] *)
Definition arrowleft (i : R) : R := Rmax 0 (IZR (js_floor i) - 1).

(** What can change [frameIdx]: a tick of the animation loop, the arrow
    keys, a click on an event marker of the timeline ([onChange(ev.t)]), and
    the reset on a change of episode ([setFrameIdx(0)]). *)
Inductive action : Type :=
  | Tick (playing : bool) (dt speed : R)
  | ArrowRight
  | ArrowLeft
  | Marker (ev : event)
  | Reset.

Definition step (len : Z) (i : R) (a : action) : R :=
  match a with
  | Tick playing dt speed => tick_frameIdx playing len dt speed i
  | ArrowRight => arrowright len i
  | ArrowLeft => arrowleft i
  | Marker ev => IZR (ev_t ev)
  | Reset => 0
  end.

Definition steps (len : Z) (i : R) (acts : list action) : R :=
  fold_left (step len) acts i.

(** The actions the application can produce on an episode whose events are
    [evs]: the clock does not run backwards ([dt >= 0]), the speed slider
    gives a positive speed, and a marker is one of the events shown. *)
Definition allowed (evs : list event) (a : action) : Prop :=
  match a with
  | Tick _ dt speed => 0 <= dt /\ 0 <= speed
  | Marker ev => In ev evs
  | ArrowRight | ArrowLeft | Reset => True
  end.

(** [const frame = frames[Math.floor(frameIdx)] || null] *)
Definition current_frame (frames : list frame) (frameIdx : R) : option frame :=
  Scene.js_nth frames (js_floor frameIdx).

(** [const prevFrame = frames[Math.max(0, Math.floor(frameIdx) - 1)] || null] *)
Definition prev_frame (frames : list frame) (frameIdx : R) : option frame :=
  Scene.js_nth frames (Z.max 0 (js_floor frameIdx - 1)).

End Playback.

(** ** The earlier rollout hook (src/App.jsx, second version): capture at the
    first frame in tolerance *)

Module Simple.
Import Analytics.

Record state : Type := State {
  rewardSum : R;
  fuelSum : R;
  capturedAt : option Z;
  events : list event
}.

Record metrics : Type := Metrics {
  m_rewardSum : R;
  m_fuelSum : R;
  m_capturedAt : option Z;
  m_events : list event;
  m_len : Z
}.

Definition init : state := State 0 0 None [].

Section Engine.

Variables tolR tolV thrustSpike : R.

(** [const vtanErr = (f.v_tan_err ?? 0)] *)
Definition vtanErr_of (f : frame) : R := nullish (f_v_tan_err f) 0.

(** [posErr <= tolR && Math.abs(vtanErr) <= tolV] *)
Definition inTol (f : frame) : bool :=
  Rle_b (posErr_of f) tolR && Rle_b (Rabs (vtanErr_of f)) tolV.

(** The body of [frames.forEach((f, idx) => { ... })]. *)
Definition body (st : state) (f : frame) (idx : Z) : state :=
  let rewardSum1 := rewardSum st + nullish (f_reward f) 0 in
  let thr := thr_of f in
  let fuelSum1 := fuelSum st + thr in
  let events1 :=
    if Rgt_b thr thrustSpike then events st ++ [Event idx thrust] else events st in
  if inTol f then
    match capturedAt st with
    | None => State rewardSum1 fuelSum1 (Some idx) (events1 ++ [Event idx entered_tol])
    | Some c => State rewardSum1 fuelSum1 (Some c) events1
    end
  else State rewardSum1 fuelSum1 (capturedAt st) events1.

Definition run (frames : list frame) : state := forEach_from body frames 0%Z init.

Definition episode_metrics (frames : list frame) : metrics :=
  let st := run frames in
  Metrics (rewardSum st) (fuelSum st) (capturedAt st) (events st)
    (Z.of_nat (length frames)).

End Engine.

End Simple.

(** ** [computeMetrics] (src/components/useRollout.js) *)

Module Compute.
Import Analytics.

Inductive kind : Type := k_thrust | k_in_tol | k_too_close | k_escape.

(** [{type, i}], with [fuel] on thrust events. *)
Record cevent : Type := CEvent { ce_type : kind; ce_i : Z; ce_fuel : option R }.

(** [cfg = {rTarget: 1.0, thrustTau: 0.01}] *)
Record config : Type := Config { rTarget : R; thrustTau : R }.

Definition default_cfg : config := Config 1.0 0.01.

Record out : Type := Out {
  o_reward : list R;
  o_fuel : list R;
  o_rmag : list R;
  o_v_rad : list R;
  o_v_tan_err : list R;
  o_events : list cevent
}.

Record result : Type := Result { res_out : out; firstTol : option Z }.

Section Engine.

Variable cfg : config.

(** [const vCirc = Math.sqrt(1.0 / cfg.rTarget)] *)
Definition vCirc : R := sqrt (1.0 / rTarget cfg).

(** [frames.map(f => (f.thrust ? Math.hypot(...f.thrust) : 0))] and
    [frames.map(f => Math.hypot(...f.r))], entry by entry. *)
Definition fuel_of (f : frame) : R := thr_of f.
Definition rmag_of (f : frame) : R := hypot3 (f_r f).

(** [const rhat = rmag>1e-9 ? [r[0]/rmag, r[1]/rmag, r[2]/rmag] : [0,0,0]] *)
Definition rhat_of (f : frame) : vec3 :=
  let rmag := rmag_of f in
  let '(r0, r1, r2) := f_r f in
  if Rgt_b rmag 1e-9 then (r0 / rmag, r1 / rmag, r2 / rmag) else (0, 0, 0).

Definition v_rad_of (f : frame) : R := dot3 (f_v f) (rhat_of f).

Definition v_tan_of (f : frame) : R :=
  let v_rad := v_rad_of f in
  let vmag := hypot3 (f_v f) in
  sqrt (Rmax 0 (vmag * vmag - v_rad * v_rad)).

(** [Math.abs(rmag - cfg.rTarget) < 0.05 && Math.abs(v_tan - vCirc) < 0.05
    && Math.abs(v_rad)<0.02] *)
Definition in_tol (f : frame) : bool :=
  Rlt_b (Rabs (rmag_of f - rTarget cfg)) 0.05 &&
  Rlt_b (Rabs (v_tan_of f - vCirc)) 0.05 &&
  Rlt_b (Rabs (v_rad_of f)) 0.02.

(** The events pushed for frame [i], in the order of the four tests. *)
Definition frame_events (f : frame) (i : Z) : list cevent :=
  (if Rgt_b (fuel_of f) (thrustTau cfg) then [CEvent k_thrust i (Some (fuel_of f))] else []) ++
  (if in_tol f then [CEvent k_in_tol i None] else []) ++
  (if Rlt_b (rmag_of f) 0.2 then [CEvent k_too_close i None] else []) ++
  (if Rgt_b (rmag_of f) 5.0 then [CEvent k_escape i None] else []).

(** The body of [for (let i=0;i<frames.length;i++){ ... }] on the three
    arrays the loop grows. *)
Definition loop_body (o : list R * list R * list cevent) (f : frame) (i : Z)
    : list R * list R * list cevent :=
  let '(v_rad, v_tan_err, events) := o in
  (v_rad ++ [v_rad_of f], v_tan_err ++ [v_tan_of f - vCirc], events ++ frame_events f i).

(** The events of the frames [idx0], [idx0 + 1], ..., frame after frame. *)
Fixpoint events_from (idx0 : Z) (frames : list frame) : list cevent :=
  match frames with
  | [] => []
  | f :: frames' => frame_events f idx0 ++ events_from (idx0 + 1)%Z frames'
  end.

(** [out.events.find(e=>e.type==="in_tol")?.i ?? null] *)
Definition is_in_tol (e : cevent) : bool :=
  match ce_type e with
  | k_in_tol => true
  | _ => false
  end.

Definition computeMetrics (frames : list frame) : result :=
  let '(v_rad, v_tan_err, events) := forEach_from loop_body frames 0%Z ([], [], []) in
  let o := Out (map (fun f => nullish (f_reward f) 0) frames)
               (map fuel_of frames) (map rmag_of frames) v_rad v_tan_err events in
  Result o (option_map ce_i (find is_in_tol events)).

End Engine.

End Compute.

(** ** Notions used to state the properties of the sparklines *)

Module Series.
Import Analytics.

(** The points [{x: idx0, y: y0}], [{x: idx0 + 1, y: y1}], ... *)
Fixpoint indexed (idx0 : Z) (ys : list R) : list point :=
  match ys with
  | [] => []
  | y :: ys' => Point idx0 y :: indexed (idx0 + 1)%Z ys'
  end.

End Series.

(** ** Facts about the helpers *)

(** Splits a conjunction into its parts, and nothing else. *)
Ltac split_conj := repeat match goal with |- _ /\ _ => split end.

(** Replaces the debounce window by its value, for [lia]. *)
Ltac unfold_K :=
  change Analytics.K_nat with 30%nat in *; change Analytics.K with 30%Z in *.

Lemma Rle_b_true x y : Rle_b x y = true <-> x <= y.
Proof. unfold Rle_b; destruct (Rle_dec x y); split; intros; try easy; lra. Qed.

Lemma Rle_b_false x y : Rle_b x y = false <-> y < x.
Proof. unfold Rle_b; destruct (Rle_dec x y); split; intros; try easy; lra. Qed.

Lemma Rlt_b_true x y : Rlt_b x y = true <-> x < y.
Proof. unfold Rlt_b; destruct (Rlt_dec x y); split; intros; try easy; lra. Qed.

Lemma Rlt_b_false x y : Rlt_b x y = false <-> y <= x.
Proof. unfold Rlt_b; destruct (Rlt_dec x y); split; intros; try easy; lra. Qed.

Lemma Rgt_b_true x y : Rgt_b x y = true <-> y < x.
Proof. apply Rlt_b_true. Qed.

Lemma Rgt_b_false x y : Rgt_b x y = false <-> x <= y.
Proof. apply Rlt_b_false. Qed.

Lemma Rtrunc_nonneg x : 0 <= x -> IZR (Rtrunc x) <= x < IZR (Rtrunc x) + 1.
Proof.
  intros Hx. unfold Rtrunc. destruct (Rle_dec 0 x) as [_ | Hn]; [| lra].
  destruct (base_Int_part x). lra.
Qed.

Lemma Rtrunc_neg x : x < 0 -> IZR (Rtrunc x) - 1 < x <= IZR (Rtrunc x).
Proof.
  intros Hx. unfold Rtrunc. destruct (Rle_dec 0 x) as [Hp | _]; [lra |].
  destruct (base_Int_part (- x)). rewrite opp_IZR. lra.
Qed.

Lemma js_rem_nonneg x y : 0 < y -> 0 <= x -> 0 <= js_rem x y < y.
Proof.
  intros Hy Hx. unfold js_rem.
  assert (Hq : 0 <= x / y) by (apply Rmult_le_pos; [lra | left; now apply Rinv_0_lt_compat]).
  destruct (Rtrunc_nonneg _ Hq) as [H1 H2].
  assert (Hxy : x = y * (x / y)) by (field; lra).
  set (t := IZR (Rtrunc (x / y))) in *.
  split.
  - assert (y * t <= y * (x / y)) by (apply Rmult_le_compat_l; lra). lra.
  - assert (y * (x / y) < y * (t + 1)) by (apply Rmult_lt_compat_l; lra). lra.
Qed.

Lemma js_rem_neg x y : 0 < y -> x < 0 -> - y < js_rem x y <= 0.
Proof.
  intros Hy Hx. unfold js_rem.
  assert (Hq : x / y < 0).
  { unfold Rdiv. replace 0 with (0 * / y) by ring.
    apply Rmult_lt_compat_r; [now apply Rinv_0_lt_compat | lra]. }
  destruct (Rtrunc_neg _ Hq) as [H1 H2].
  assert (Hxy : x = y * (x / y)) by (field; lra).
  set (t := IZR (Rtrunc (x / y))) in *.
  split.
  - assert (y * (t - 1) < y * (x / y)) by (apply Rmult_lt_compat_l; lra). lra.
  - assert (y * (x / y) <= y * t) by (apply Rmult_le_compat_l; lra). lra.
Qed.

(** A negative dividend smaller in size than the divisor is left as it is. *)
Lemma js_rem_small_neg x y : 0 < y -> - y < x < 0 -> js_rem x y = x.
Proof.
  intros Hy [Hlo Hhi]. unfold js_rem.
  assert (Hq : -1 < x / y < 0).
  { assert (Hxy : x = y * (x / y)) by (field; lra).
    split.
    - apply Rmult_lt_reg_l with y; [lra |]. lra.
    - apply Rmult_lt_reg_l with y; [lra |]. lra. }
  assert (Ht : Rtrunc (x / y) = 0%Z).
  { unfold Rtrunc. destruct (Rle_dec 0 (x / y)); [lra |].
    rewrite <- (Int_part_spec (- (x / y)) 0%Z); [reflexivity |]. simpl. lra. }
  rewrite Ht. simpl. ring.
Qed.

(** ** The Kepler solver and the planet set-up *)

Module KeplerFacts.
Import Kepler.

Lemma newton_rounds_iter M e n E :
  newton_rounds M e n E = Nat.iter n (newton_update M e) E.
Proof.
  revert E. induction n as [| n IH]; intros E; [reflexivity |].
  cbn [newton_rounds]. rewrite IH. symmetry. apply Nat.iter_succ_r.
Qed.

Lemma keplerE_iterate M e : keplerE M e = iterate M e 8.
Proof. apply newton_rounds_iter. Qed.

Lemma loop_run_from M e n : forall k E,
  (k + n <= 8)%nat ->
  loop_run M e n (LoopState k E) =
  Some (LoopState (k + n) (Nat.iter n (newton_update M e) E)).
Proof.
  induction n as [| n IH]; intros k E Hk.
  - cbn. now rewrite Nat.add_0_r.
  - cbn [loop_run]. unfold loop_step. cbn [ls_k ls_E].
    destruct (Nat.ltb_spec k 8) as [_ | Hge]; [| lia].
    rewrite IH by lia. rewrite <- Nat.iter_succ_r.
    now replace (S k + n)%nat with (k + S n)%nat by lia.
Qed.

Lemma loop_run_stuck M e n : forall s,
  (8 <= ls_k s)%nat -> loop_run M e (S n) s = None.
Proof.
  intros s Hs. cbn [loop_run]. unfold loop_step.
  destruct (Nat.ltb_spec (ls_k s) 8); [lia | reflexivity].
Qed.

Lemma loop_run_add M e a b s :
  loop_run M e (a + b) s =
  match loop_run M e a s with
  | Some s' => loop_run M e b s'
  | None => None
  end.
Proof.
  revert s. induction a as [| a IH]; intros s; [reflexivity |].
  cbn [Nat.add loop_run]. destruct (loop_step M e s); [apply IH | reflexivity].
Qed.

Lemma newton_fp_lower e E : 0 <= e -> 1 - e <= newton_fp e E.
Proof.
  intros He. unfold newton_fp. destruct (COS_bound E) as [_ Hc].
  assert (e * cos E <= e * 1) by (apply Rmult_le_compat_l; lra). lra.
Qed.

Lemma newton_rounds_checked_ok M e n : forall E,
  0 <= e < 1 -> newton_rounds_checked M e n E = Some (newton_rounds M e n E).
Proof.
  induction n as [| n IH]; intros E He; [reflexivity |].
  cbn [newton_rounds_checked newton_rounds]. unfold div_checked.
  pose proof (newton_fp_lower e E (proj1 He)).
  destruct (Req_dec_T (newton_fp e E) 0) as [Hz | _]; [lra |].
  now rewrite IH.
Qed.

Lemma mean_anomaly_raw_example :
  mean_anomaly_raw (Planet 1 0 0 0 0 (-90)) 0 = - (PI / 2).
Proof. unfold mean_anomaly_raw, rad. cbn [p_M0]. field. Qed.

Lemma eVis_example : eVis (Planet 1 0.5 0 0 0 0) (Some 2) = 0.9.
Proof.
  unfold eVis, eccScale_or_default, nullish. cbn [p_e].
  apply Rmin_right. lra.
Qed.

(** C6 (as amended): for a planet with semi-major axis [a > 0], the mean
    anomaly is the JavaScript remainder of
    [x = M0 * pi/180 + sqrt (mu / a^3) * t] by [2 pi]. It differs from [x]
    by a whole number of turns and takes the sign of [x]: it lies in
    [0, 2 pi) when [x >= 0], and in (-2 pi, 0] when [x < 0]; a negative [x]
    above [-2 pi] is returned unchanged. *)
Theorem mean_anomaly_sign_of_dividend (p : planet) (tDays : R) (Ha : 0 < p_a p) :
  let x := p_M0 p * rad + sqrt (mu / p_a p ^ 3) * tDays in
  mean_anomaly p tDays = js_rem x (2 * PI) /\
  (exists q : Z, mean_anomaly p tDays = x - IZR q * (2 * PI)) /\
  (0 <= x -> 0 <= mean_anomaly p tDays < 2 * PI) /\
  (x < 0 -> - (2 * PI) < mean_anomaly p tDays <= 0) /\
  (- (2 * PI) < x < 0 -> mean_anomaly p tDays = x).
Proof.
  intros x. pose proof PI_RGT_0 as Hpi.
  assert (Hdef : mean_anomaly p tDays = js_rem x (2 * PI)) by reflexivity.
  rewrite Hdef. split_conj.
  - reflexivity.
  - exists (Rtrunc (x / (2 * PI))). unfold js_rem. ring.
  - intros Hx. apply js_rem_nonneg; lra.
  - intros Hx. apply js_rem_neg; lra.
  - intros Hx. apply js_rem_small_neg; lra.
Qed.

Lemma mean_anomaly_sign_of_dividend_witness :
  0 < p_a (Planet 1 0 0 0 0 90) /\
  0 <= mean_anomaly (Planet 1 0 0 0 0 90) 0 < 2 * PI /\
  mean_anomaly (Planet 1 0 0 0 0 (-90)) 0 = - (PI / 2).
Proof.
  pose proof PI_RGT_0 as Hpi.
  assert (Ha : 0 < p_a (Planet 1 0 0 0 0 90)) by (cbn [p_a]; lra).
  assert (Ha' : 0 < p_a (Planet 1 0 0 0 0 (-90))) by (cbn [p_a]; lra).
  split; [exact Ha |]. split.
  - apply (mean_anomaly_sign_of_dividend (Planet 1 0 0 0 0 90) 0 Ha).
    cbn [p_M0 p_a]. unfold rad. rewrite Rmult_0_r. lra.
  - assert (Hx : p_M0 (Planet 1 0 0 0 0 (-90)) * rad
                 + sqrt (mu / p_a (Planet 1 0 0 0 0 (-90)) ^ 3) * 0 = - (PI / 2)).
    { cbn [p_M0 p_a]. unfold rad. field. }
    destruct (mean_anomaly_sign_of_dividend (Planet 1 0 0 0 0 (-90)) 0 Ha')
      as (_ & _ & _ & _ & Hsmall).
    rewrite Hx in Hsmall. apply Hsmall. lra.
Defined.

(** C6, the claim as stated fails: Earth-like planet, [a = 1], catalogue
    [M0 = -90] degrees, at [t = 0]: the mean anomaly is [- pi / 2], outside
    [0, 2 pi). *)
Lemma mean_anomaly_negative_dividend :
  0 < p_a (Planet 1 0 0 0 0 (-90)) /\ 0 < mu /\
  mean_anomaly (Planet 1 0 0 0 0 (-90)) 0 = - (PI / 2) /\
  ~ (0 <= mean_anomaly (Planet 1 0 0 0 0 (-90)) 0 < 2 * PI).
Proof.
  pose proof PI_RGT_0 as Hpi.
  assert (Hm : mean_anomaly (Planet 1 0 0 0 0 (-90)) 0 = - (PI / 2)).
  { unfold mean_anomaly. rewrite mean_anomaly_raw_example.
    apply js_rem_small_neg; lra. }
  split_conj.
  - cbn [p_a]. lra.
  - unfold mu. lra.
  - exact Hm.
  - rewrite Hm. lra.
Qed.

(** C7 (as amended): the eccentricity handed to the solver for a planet is
    [min (e * scale) 0.9] (scale 1 when the caller gives none): it is at most
    0.9, equals 0.9 as soon as [e * scale >= 0.9], and is [e * scale] below
    that. [keplerE] itself uses the eccentricity it is given as it is: each
    round is the Newton update with that [e], a first round from the seed
    [pi / 2] yields [pi / 2 + e] whatever [e] is, and for [e] in [0, 1) no
    round divides by zero. *)
Theorem eVis_min_and_solver_unclamped (p : planet) (eccScale : option R) (tDays : R) :
  let scaled := p_e p * nullish eccScale 1 in
  eVis p eccScale = Rmin scaled 0.9 /\
  eVis p eccScale <= 0.9 /\
  (0.9 <= scaled -> eVis p eccScale = 0.9) /\
  (scaled <= 0.9 -> eVis p eccScale = scaled) /\
  (forall M,
     el_e (planet_elements p eccScale M) = eVis p eccScale /\
     elementsToPositionAU (planet_elements p eccScale M) =
       position_of_E (planet_elements p eccScale M) (keplerE M (eVis p eccScale))) /\
  (forall M e, keplerE M e =
     Nat.iter 8 (fun E => E - (E - e * sin E - M) / (1 - e * cos E)) M) /\
  (forall e, newton_update (PI / 2) e (PI / 2) = PI / 2 + e) /\
  (forall M e, 0 <= e < 1 -> keplerE_checked M e = Some (keplerE M e)).
Proof.
  intros scaled.
  assert (Hdef : eVis p eccScale = Rmin scaled 0.9) by reflexivity.
  rewrite Hdef. split_conj.
  - reflexivity.
  - apply Rmin_r.
  - intros H. apply Rmin_right. exact H.
  - intros H. apply Rmin_left. exact H.
  - intros M. split; reflexivity.
  - intros M e. rewrite keplerE_iterate. reflexivity.
  - intros e. unfold newton_update, newton_f, newton_fp.
    rewrite sin_PI2, cos_PI2. field.
  - intros M e He. unfold keplerE_checked, keplerE.
    now apply newton_rounds_checked_ok.
Qed.

Lemma eVis_min_and_solver_unclamped_witness :
  eVis (Planet 1 0.5 0 0 0 0) (Some 2) = 0.9 /\
  eVis (Planet 1 0.2056 0 0 0 0) None = 0.2056 * 1 /\
  keplerE_checked 1 0.95 = Some (keplerE 1 0.95).
Proof.
  split_conj.
  - apply (eVis_min_and_solver_unclamped (Planet 1 0.5 0 0 0 0) (Some 2) 0).
    cbn [p_e nullish]. lra.
  - apply (eVis_min_and_solver_unclamped (Planet 1 0.2056 0 0 0 0) None 0).
    cbn [p_e nullish]. lra.
  - apply (eVis_min_and_solver_unclamped (Planet 1 0 0 0 0 0) None 0). lra.
Defined.

(** C7, the claim as stated fails: [e = 0.5] scaled by 2 gives exactly 0.9,
    which is not strictly below 0.9. *)
Lemma eVis_reaches_bound :
  0 <= p_e (Planet 1 0.5 0 0 0 0) /\
  eVis (Planet 1 0.5 0 0 0 0) (Some 2) = 0.9 /\
  ~ (eVis (Planet 1 0.5 0 0 0 0) (Some 2) < 0.9).
Proof.
  split_conj.
  - cbn [p_e]. lra.
  - apply eVis_example.
  - rewrite eVis_example. lra.
Qed.

(** C8: whatever [M] and [e] are, the loop of [keplerE] starts from [E = M],
    takes exactly 8 steps and then stops: after 8 steps the counter is 8 and
    [E] is the value [keplerE] returns, no further step applies, a run is
    never shorter or longer, and each step is the Newton update of
    [E - e sin E - M]; nothing in a step looks at how close [E] is to a
    root. *)
Theorem keplerE_fixed_budget (M e : R) :
  loop_init M = LoopState 0 M /\
  loop_run M e 8 (loop_init M) = Some (LoopState 8 (keplerE M e)) /\
  loop_step M e (LoopState 8 (keplerE M e)) = None /\
  (forall n s, loop_run M e n (loop_init M) = Some s ->
     (n <= 8)%nat /\ ls_k s = n /\ ls_E s = iterate M e n /\
     (loop_step M e s = None <-> n = 8%nat)) /\
  keplerE M e = iterate M e 8 /\
  iterate M e 0 = M /\
  (forall k, iterate M e (S k) =
     iterate M e k -
     (iterate M e k - e * sin (iterate M e k) - M) / (1 - e * cos (iterate M e k))).
Proof.
  assert (Hrun : forall n, (n <= 8)%nat ->
            loop_run M e n (loop_init M) = Some (LoopState n (iterate M e n))).
  { intros n Hn. unfold loop_init. now rewrite loop_run_from by lia. }
  split_conj.
  - reflexivity.
  - rewrite keplerE_iterate. now apply Hrun.
  - unfold loop_step. reflexivity.
  - intros n s H.
    destruct (Nat.le_gt_cases n 8) as [Hle | Hgt].
    + rewrite Hrun in H by exact Hle. inversion H; subst s; clear H.
      split_conj; try reflexivity; try exact Hle.
      unfold loop_step. cbn [ls_k]. split.
      * destruct (Nat.ltb_spec n 8); [discriminate | lia].
      * intros ->. reflexivity.
    + replace n with (8 + S (n - 9))%nat in H by lia.
      rewrite loop_run_add, (Hrun 8%nat) in H by lia.
      rewrite loop_run_stuck in H by (cbn; lia). discriminate.
  - apply keplerE_iterate.
  - reflexivity.
  - intros k. reflexivity.
Qed.

(** C9: for an eccentricity in [0, 1) and any mean anomaly, the denominator
    [1 - e cos E] of every round is at least [1 - e > 0]; so none of the 8
    divisions is by zero, and the solver with a guarded division returns the
    value of [keplerE]. *)
Theorem keplerE_denominator_positive (M e : R) (He : 0 <= e < 1) :
  0 < 1 - e /\
  (forall k, 1 - e <= newton_fp e (iterate M e k)) /\
  (forall k, (k < 8)%nat -> newton_fp e (iterate M e k) <> 0) /\
  keplerE_checked M e = Some (keplerE M e).
Proof.
  split_conj.
  - lra.
  - intros k. apply newton_fp_lower. lra.
  - intros k _. pose proof (newton_fp_lower e (iterate M e k) (proj1 He)). lra.
  - unfold keplerE_checked, keplerE. now apply newton_rounds_checked_ok.
Qed.

Lemma keplerE_denominator_positive_witness :
  0 <= 0.5 < 1 /\ keplerE_checked 1 0.5 = Some (keplerE 1 0.5).
Proof.
  assert (H : 0 <= 0.5 < 1) by lra.
  split; [exact H |].
  apply (keplerE_denominator_positive 1 0.5 H).
Defined.

End KeplerFacts.

(** ** The rollout analytics pass *)

Module AnalyticsFacts.
Import Analytics.

Lemma forEach_from_app {S A : Type} (body : S -> A -> Z -> S) l1 : forall l2 idx st,
  forEach_from body (l1 ++ l2) idx st =
  forEach_from body l2 (idx + Z.of_nat (length l1))%Z (forEach_from body l1 idx st).
Proof.
  induction l1 as [| a l1 IH]; intros l2 idx st.
  - cbn. now rewrite Z.add_0_r.
  - cbn [app forEach_from length]. rewrite IH. f_equal. lia.
Qed.

Lemma nth_error_snoc {A : Type} (l : list A) (b : A) (j : nat) :
  nth_error (l ++ [b]) j =
  if (j <? length l)%nat then nth_error l j
  else if (j =? length l)%nat then Some b else None.
Proof.
  destruct (Nat.ltb_spec j (length l)) as [Hlt | Hge].
  - now apply nth_error_app1.
  - rewrite nth_error_app2 by exact Hge.
    destruct (Nat.eqb_spec j (length l)) as [-> | Hne].
    + now rewrite Nat.sub_diag.
    + destruct (j - length l)%nat as [| [| m]] eqn:Hd; [lia | reflexivity | reflexivity].
Qed.

Lemma qualifies_lt tols idx : qualifies tols idx -> (idx < length tols)%nat.
Proof.
  intros (_ & Hin & _). apply nth_error_Some. rewrite (Hin idx); [discriminate | unfold_K; lia].
Qed.

Lemma qualifies_snoc tols b idx :
  (idx < length tols)%nat -> (qualifies (tols ++ [b]) idx <-> qualifies tols idx).
Proof.
  intros Hidx. unfold qualifies. split.
  - intros (HK & Hin & j & Hj & Hout). split; [exact HK | split].
    + intros i Hi. specialize (Hin i Hi). rewrite nth_error_app1 in Hin by lia. exact Hin.
    + exists j. split; [exact Hj |]. rewrite nth_error_app1 in Hout by lia. exact Hout.
  - intros (HK & Hin & j & Hj & Hout). split; [exact HK | split].
    + intros i Hi. rewrite nth_error_app1 by lia. now apply Hin.
    + exists j. split; [exact Hj |]. rewrite nth_error_app1 by lia. exact Hout.
Qed.

Section Pass.

Variables tolR tolV thrustSpike : R.

Local Abbreviation body := (body tolR tolV thrustSpike).
Local Abbreviation run := (run tolR tolV thrustSpike).
Local Abbreviation observe := (observe tolR tolV thrustSpike).
Local Abbreviation inTol := (inTol tolR tolV).
Local Abbreviation spike := (spike thrustSpike).

Lemma run_snoc frames f :
  run (frames ++ [f]) = body (run frames) f (Z.of_nat (length frames)).
Proof. unfold Analytics.run. now rewrite forEach_from_app. Qed.

Lemma core_run_snoc os o :
  core_run (os ++ [o]) = core_body (core_run os) o (Z.of_nat (length os)).
Proof. unfold core_run. now rewrite forEach_from_app. Qed.

(** [body] acts on the counters and the event list as [core_body] does. *)
Lemma core_of_body st f idx :
  core_of (body st f idx) = core_body (core_of st) (observe f) idx.
Proof.
  unfold Analytics.body, core_body, core_of, Analytics.observe, Analytics.spike.
  cbn [o_spike o_tol c_events c_capturedAt c_inTolCount c_tolStreak c_seenOut].
  destruct (Analytics.inTol tolR tolV f); [| reflexivity].
  destruct (capturedAt st); [reflexivity |].
  destruct (seenOut st && (K <=? tolStreak st + 1)%Z); reflexivity.
Qed.

Lemma core_of_forEach frames : forall idx st,
  core_of (forEach_from body frames idx st) =
  forEach_from core_body (map observe frames) idx (core_of st).
Proof.
  induction frames as [| f frames IH]; intros idx st; [reflexivity |].
  cbn [forEach_from map]. rewrite IH. now rewrite core_of_body.
Qed.

Lemma core_of_run frames : core_of (run frames) = core_run (map observe frames).
Proof. apply core_of_forEach. Qed.

End Pass.

(** *** How one round changes each field *)

Lemma seenOut_body st o idx :
  c_seenOut (core_body st o idx) = if o_tol o then c_seenOut st else true.
Proof.
  unfold core_body. destruct (o_tol o); [| reflexivity].
  destruct (c_capturedAt st); [reflexivity |].
  destruct (c_seenOut st && _); reflexivity.
Qed.

Lemma tolStreak_body st o idx :
  c_tolStreak (core_body st o idx) =
  if o_tol o then (c_tolStreak st + 1)%Z else 0%Z.
Proof.
  unfold core_body. destruct (o_tol o); [| reflexivity].
  destruct (c_capturedAt st); [reflexivity |].
  destruct (c_seenOut st && _); reflexivity.
Qed.

Lemma inTolCount_body st o idx :
  c_inTolCount (core_body st o idx) =
  if o_tol o then (c_inTolCount st + 1)%Z else c_inTolCount st.
Proof.
  unfold core_body. destruct (o_tol o); [| reflexivity].
  destruct (c_capturedAt st); [reflexivity |].
  destruct (c_seenOut st && _); reflexivity.
Qed.

Lemma capturedAt_body st o idx :
  c_capturedAt (core_body st o idx) =
  match c_capturedAt st with
  | Some c => Some c
  | None =>
      if o_tol o && c_seenOut st && (K <=? c_tolStreak st + 1)%Z
      then Some (idx - K + 1)%Z else None
  end.
Proof.
  unfold core_body. destruct (o_tol o).
  - destruct (c_capturedAt st); [reflexivity |]. cbn [andb].
    destruct (c_seenOut st && _); reflexivity.
  - cbn [andb]. destruct (c_capturedAt st); reflexivity.
Qed.

Lemma events_body st o idx :
  c_events (core_body st o idx) =
  c_events st ++ (if o_spike o then [Event idx thrust] else []) ++
  match c_capturedAt st with
  | Some _ => []
  | None =>
      if o_tol o && c_seenOut st && (K <=? c_tolStreak st + 1)%Z
      then [Event (idx - K + 1)%Z entered_tol] else []
  end.
Proof.
  unfold core_body.
  destruct (o_spike o), (o_tol o), (c_capturedAt st); cbn [andb app];
    try destruct (c_seenOut st && _); cbn [c_events app];
    rewrite <- ?app_assoc, ?app_nil_r; reflexivity.
Qed.

(** *** The capture invariant *)

Lemma capture_inv_init : capture_inv [] core_init.
Proof.
  unfold capture_inv, core_init. cbn [c_seenOut c_tolStreak c_capturedAt length].
  split_conj.
  - split; [discriminate |]. intros [j Hj]. destruct j; discriminate.
  - exists 0%nat. split_conj; try reflexivity; intros; lia.
  - intros idx Hq. apply qualifies_lt in Hq. cbn in Hq. lia.
Qed.

Lemma capture_inv_step tols st o :
  capture_inv tols st ->
  capture_inv (tols ++ [o_tol o]) (core_body st o (Z.of_nat (length tols))).
Proof.
  intros (Hseen & (s & Hs & Hsle & Hrun & Hbefore) & Hcap).
  unfold capture_inv.
  rewrite seenOut_body, tolStreak_body, capturedAt_body, length_app.
  cbn [length]. set (n := length tols) in *.
  destruct (o_tol o) eqn:Hb; cbn [andb].
  - (* the frame is in tolerance *)
    assert (Hseen' : c_seenOut st = true <->
                     exists j, nth_error (tols ++ [true]) j = Some false).
    { rewrite Hseen. split; intros [j Hj]; exists j.
      - rewrite nth_error_snoc. fold n.
        destruct (Nat.ltb_spec j n) as [_ | Hge]; [exact Hj |].
        assert (nth_error tols j = None) by (apply nth_error_None; exact Hge).
        congruence.
      - rewrite nth_error_snoc in Hj. fold n in Hj.
        destruct (Nat.ltb_spec j n); [exact Hj |].
        destruct (Nat.eqb_spec j n); discriminate. }
    assert (Hrun' : forall j, (n + 1 - S s <= j < n + 1)%nat ->
                      nth_error (tols ++ [true]) j = Some true).
    { intros j Hj. rewrite nth_error_snoc. fold n.
      destruct (Nat.ltb_spec j n) as [Hlt | Hge].
      - apply Hrun. lia.
      - destruct (Nat.eqb_spec j n); [reflexivity | lia]. }
    split_conj.
    + exact Hseen'.
    + exists (S s). split_conj.
      * lia.
      * lia.
      * exact Hrun'.
      * intros Hlt. rewrite nth_error_snoc. fold n.
        destruct (Nat.ltb_spec (n + 1 - S s - 1) n) as [_ | Hge]; [| lia].
        replace (n + 1 - S s - 1)%nat with (n - s - 1)%nat by lia.
        apply Hbefore. lia.
    + destruct (c_capturedAt st) as [c |].
      * destruct Hcap as (idx & Hq & Hfirst & Hc).
        pose proof (qualifies_lt _ _ Hq) as Hidx. fold n in Hidx.
        exists idx. split_conj.
        -- apply qualifies_snoc; assumption.
        -- intros j Hj Hqj. apply (Hfirst j Hj).
           apply (qualifies_snoc tols true j); [fold n; lia | exact Hqj].
        -- exact Hc.
      * assert (Hold : forall j, (j < n)%nat -> ~ qualifies (tols ++ [true]) j).
        { intros j Hj Hqj. apply (Hcap j).
          apply (qualifies_snoc tols true j); [fold n; lia | exact Hqj]. }
        destruct (c_seenOut st) eqn:Hso; cbn [andb].
        -- destruct (Z.leb_spec K (c_tolStreak st + 1)) as [HK | HK].
           ++ (* capture at this frame *)
              exists n. split_conj.
              ** unfold qualifies in *; unfold_K. split_conj.
                 --- lia.
                 --- intros j Hj. apply Hrun'. lia.
                 --- destruct (proj1 Hseen eq_refl) as [j Hj].
                     exists j. split.
                     +++ assert (Hjn : (j < n)%nat)
                           by (apply nth_error_Some; congruence).
                         destruct (Nat.lt_ge_cases j (n - s)) as [Hlt | Hge]; [lia |].
                         rewrite Hrun in Hj by lia. discriminate.
                     +++ rewrite nth_error_snoc. fold n.
                         destruct (Nat.ltb_spec j n) as [_ | Hge]; [exact Hj |].
                         assert (nth_error tols j = None)
                           by (apply nth_error_None; exact Hge).
                         congruence.
              ** exact Hold.
              ** reflexivity.
           ++ (* seen out, but the streak is still short *)
              intros idx Hq.
              pose proof (qualifies_lt _ _ Hq) as Hidx.
              rewrite length_app in Hidx. cbn [length] in Hidx. fold n in Hidx.
              destruct (Nat.eq_dec idx n) as [-> | Hne];
                [| apply (Hold idx); [lia | exact Hq]].
              destruct Hq as (HKn & Hin & _). unfold_K.
              assert (Hlt : (s < n)%nat) by lia.
              specialize (Hbefore Hlt).
              specialize (Hin (n - s - 1)%nat).
              rewrite nth_error_snoc in Hin. fold n in Hin.
              destruct (Nat.ltb_spec (n - s - 1) n) as [_ | Hge]; [| lia].
              rewrite Hbefore in Hin. discriminate Hin. lia.
        -- (* never out so far *)
           intros idx Hq. destruct Hq as (_ & _ & j & _ & Hout).
           assert (Hft : false = true) by (apply Hseen'; now exists j).
           discriminate Hft.
  - (* the frame is out of tolerance *)
    split_conj.
    + split; [| reflexivity]. intros _. exists n.
      rewrite nth_error_snoc. fold n.
      destruct (Nat.ltb_spec n n); [lia |]. now rewrite Nat.eqb_refl.
    + exists 0%nat. split_conj.
      * reflexivity.
      * lia.
      * intros j Hj. lia.
      * intros _. rewrite nth_error_snoc. fold n.
        destruct (Nat.ltb_spec (n + 1 - 0 - 1) n); [lia |].
        destruct (Nat.eqb_spec (n + 1 - 0 - 1) n); [reflexivity | lia].
    + assert (Hlast : ~ qualifies (tols ++ [false]) n).
      { intros (_ & Hin & _). specialize (Hin n).
        rewrite nth_error_snoc in Hin. fold n in Hin.
        destruct (Nat.ltb_spec n n); [lia |]. rewrite Nat.eqb_refl in Hin.
        assert (Some false = Some true) by (apply Hin; unfold_K; lia).
        discriminate. }
      destruct (c_capturedAt st) as [c |].
      * destruct Hcap as (idx & Hq & Hfirst & Hc).
        pose proof (qualifies_lt _ _ Hq) as Hidx. fold n in Hidx.
        exists idx. split_conj.
        -- apply qualifies_snoc; assumption.
        -- intros j Hj Hqj. apply (Hfirst j Hj).
           apply (qualifies_snoc tols false j); [fold n; lia | exact Hqj].
        -- exact Hc.
      * intros idx Hq.
        pose proof (qualifies_lt _ _ Hq) as Hidx.
        rewrite length_app in Hidx. cbn [length] in Hidx. fold n in Hidx.
        destruct (Nat.eq_dec idx n) as [-> | Hne]; [now apply Hlast |].
        apply (Hcap idx). apply (qualifies_snoc tols false idx); [fold n; lia | exact Hq].
Qed.

Lemma capture_inv_run os : capture_inv (map o_tol os) (core_run os).
Proof.
  induction os as [| o os IH] using rev_ind.
  - apply capture_inv_init.
  - rewrite core_run_snoc, map_app. cbn [map].
    replace (length os) with (length (map o_tol os)) by apply length_map.
    now apply capture_inv_step.
Qed.

(** *** Counting and the thrust events *)

Lemma inTolCount_run os :
  c_inTolCount (core_run os) = Z.of_nat (length (filter o_tol os)).
Proof.
  induction os as [| o os IH] using rev_ind; [reflexivity |].
  rewrite core_run_snoc, inTolCount_body, IH, filter_app, length_app.
  cbn [filter]. destruct (o_tol o); cbn [length]; lia.
Qed.

Lemma thrust_events_snoc l : forall idx0 b,
  thrust_events idx0 (l ++ [b]) =
  thrust_events idx0 l ++
  (if b then [Event (idx0 + Z.of_nat (length l)) thrust] else []).
Proof.
  induction l as [| a l IH]; intros idx0 b.
  - cbn. rewrite Z.add_0_r, app_nil_r. reflexivity.
  - cbn [app thrust_events length]. rewrite IH, <- app_assoc.
    do 3 f_equal. destruct b; [| reflexivity]. do 2 f_equal. lia.
Qed.

Lemma thrust_events_app l1 : forall idx0 l2,
  thrust_events idx0 (l1 ++ l2) =
  thrust_events idx0 l1 ++ thrust_events (idx0 + Z.of_nat (length l1)) l2.
Proof.
  induction l1 as [| a l1 IH]; intros idx0 l2.
  - cbn. now rewrite Z.add_0_r.
  - cbn [app thrust_events length]. rewrite IH, <- app_assoc.
    do 3 f_equal. lia.
Qed.

Lemma In_thrust_events l : forall idx0 ev,
  In ev (thrust_events idx0 l) <->
  exists j, nth_error l j = Some true /\ ev = Event (idx0 + Z.of_nat j) thrust.
Proof.
  induction l as [| b l IH]; intros idx0 ev.
  - cbn. split; [tauto | intros ([| j] & Hj & _); discriminate].
  - cbn [thrust_events]. rewrite in_app_iff, IH. split.
    + intros [Hhd | (j & Hj & ->)].
      * destruct b; [| destruct Hhd]. destruct Hhd as [<- | []].
        exists 0%nat. split; [reflexivity |]. now rewrite Z.add_0_r.
      * exists (S j). split; [exact Hj |]. f_equal. lia.
    + intros ([| j] & Hj & ->).
      * left. cbn in Hj. injection Hj as ->. left. now rewrite Z.add_0_r.
      * right. exists j. split; [exact Hj |]. f_equal. lia.
Qed.

Lemma filter_thrust_events idx0 l :
  filter is_thrust (thrust_events idx0 l) = thrust_events idx0 l.
Proof.
  revert idx0. induction l as [| b l IH]; intros idx0; [reflexivity |].
  cbn [thrust_events]. rewrite filter_app, IH. now destruct b.
Qed.

Lemma thrust_events_run os :
  filter is_thrust (c_events (core_run os)) = thrust_events 0 (map o_spike os).
Proof.
  induction os as [| o os IH] using rev_ind; [reflexivity |].
  rewrite core_run_snoc, events_body, !filter_app, IH, map_app.
  cbn [map]. rewrite thrust_events_snoc, length_map. cbn [Z.add].
  f_equal.
  replace (filter is_thrust match c_capturedAt (core_run os) with
             | Some _ => []
             | None =>
                 if o_tol o && c_seenOut (core_run os) &&
                    (K <=? c_tolStreak (core_run os) + 1)%Z
                 then [Event (Z.of_nat (length os) - K + 1) entered_tol] else []
             end) with (@nil event).
  - rewrite app_nil_r. now destruct (o_spike o).
  - destruct (c_capturedAt (core_run os)); [reflexivity |].
    now destruct (o_tol o && c_seenOut (core_run os) && _).
Qed.

Lemma Rsum_snoc l x : Rsum (l ++ [x]) = Rsum l + x.
Proof.
  induction l as [| a l IH]; cbn [app Rsum fold_right] in *; [ring |].
  fold (Rsum (l ++ [x])). fold (Rsum l). rewrite IH. ring.
Qed.

Lemma hypot3_axis x : 0 <= x -> hypot3 (x, 0, 0) = x.
Proof.
  intros Hx. unfold hypot3.
  replace (x * x + 0 * 0 + 0 * 0) with (x * x) by ring.
  now apply sqrt_square.
Qed.

(** *** Layout of the event list *)

Lemma events_inv_run os : events_inv (map o_spike os) (core_run os).
Proof.
  induction os as [| o os IH] using rev_ind; [reflexivity |].
  unfold events_inv in *.
  rewrite core_run_snoc, capturedAt_body, events_body, map_app. cbn [map].
  destruct (c_capturedAt (core_run os)) as [c |].
  - destruct IH as (pre & post & Hsp & Hlen & Hev).
    exists pre, (post ++ [o_spike o]). split_conj.
    + now rewrite Hsp, app_assoc.
    + exact Hlen.
    + rewrite Hev, app_nil_r, thrust_events_snoc, <- !app_assoc.
      do 3 f_equal. destruct (o_spike o); [| reflexivity]. do 2 f_equal.
      assert (Hn : length os = (length pre + length post)%nat)
        by (rewrite <- (length_map o_spike os), Hsp; apply length_app).
      lia.
  - rewrite IH.
    destruct (o_tol o && c_seenOut (core_run os) && _).
    + exists (map o_spike os ++ [o_spike o]), []. split_conj.
      * now rewrite app_nil_r.
      * rewrite length_app, length_map. cbn [length]. lia.
      * rewrite thrust_events_snoc, length_map, <- !app_assoc. reflexivity.
    + rewrite app_nil_r, thrust_events_snoc, length_map. reflexivity.
Qed.

Lemma thrust_events_bounds idx0 l ev :
  In ev (thrust_events idx0 l) ->
  (idx0 <= ev_t ev < idx0 + Z.of_nat (length l))%Z /\ ev_type ev = thrust.
Proof.
  intros Hin. apply In_thrust_events in Hin. destruct Hin as (j & Hj & ->).
  assert (j < length l)%nat by (apply nth_error_Some; congruence).
  cbn. split; [lia | reflexivity].
Qed.

Lemma sorted_app {A : Type} (R : A -> A -> Prop) l1 l2 :
  StronglySorted R (l1 ++ l2) <->
  StronglySorted R l1 /\ StronglySorted R l2 /\
  (forall a b, In a l1 -> In b l2 -> R a b).
Proof.
  induction l1 as [| x l1 IH]; cbn [app].
  - split; [intros H | intros (_ & H & _); exact H].
    split_conj; [constructor | exact H | intros a b []].
  - split.
    + intros H. apply StronglySorted_inv in H. destruct H as [Hs Hf].
      apply IH in Hs. destruct Hs as (Hs1 & Hs2 & Hc).
      rewrite Forall_app in Hf. destruct Hf as [Hf1 Hf2].
      split_conj.
      * now constructor.
      * exact Hs2.
      * intros a b [<- | Ha] Hb; [| now apply Hc].
        rewrite Forall_forall in Hf2. now apply Hf2.
    + intros (Hs1 & Hs2 & Hc). apply StronglySorted_inv in Hs1.
      destruct Hs1 as [Hs1 Hf1]. constructor.
      * apply IH. split_conj; [exact Hs1 | exact Hs2 |].
        intros a b Ha Hb. apply Hc; [now right | exact Hb].
      * rewrite Forall_app. split; [exact Hf1 |].
        rewrite Forall_forall. intros b Hb. apply Hc; [now left | exact Hb].
Qed.

Lemma ascending_iff_sorted evs :
  ascending evs <-> StronglySorted (fun a b => (ev_t a <= ev_t b)%Z) evs.
Proof.
  unfold ascending. induction evs as [| e evs IH].
  - split; [constructor | intros _ [| i] j a b _ Hi; discriminate].
  - split.
    + intros H. constructor.
      * apply IH. intros i j a b Hij Ha Hb. apply (H (S i) (S j)); [lia | exact Ha | exact Hb].
      * rewrite Forall_forall. intros b Hb.
        apply In_nth_error in Hb. destruct Hb as [j Hj].
        apply (H 0%nat (S j)); [lia | reflexivity | exact Hj].
    + intros H. apply StronglySorted_inv in H. destruct H as [Hs Hf].
      intros [| i] [| j] a b Hij Ha Hb; try lia.
      * cbn in Ha, Hb. injection Ha as <-.
        rewrite Forall_forall in Hf. apply Hf. now apply nth_error_In in Hb.
      * cbn in Ha, Hb. apply (proj2 IH Hs i j); [lia | exact Ha | exact Hb].
Qed.

Lemma thrust_events_sorted l : forall idx0,
  StronglySorted (fun a b => (ev_t a <= ev_t b)%Z) (thrust_events idx0 l).
Proof.
  induction l as [| b l IH]; intros idx0; [constructor |].
  cbn [thrust_events]. apply sorted_app. split_conj.
  - destruct b; repeat constructor.
  - apply IH.
  - intros a c Ha Hc. apply thrust_events_bounds in Hc.
    destruct b; [| destruct Ha]. destruct Ha as [<- | []]. cbn. lia.
Qed.

Section Claims.

Variables tolR tolV thrustSpike : R.

Local Abbreviation body := (body tolR tolV thrustSpike).
Local Abbreviation run := (run tolR tolV thrustSpike).
Local Abbreviation observe := (observe tolR tolV thrustSpike).
Local Abbreviation inTol := (inTol tolR tolV).
Local Abbreviation spike := (spike thrustSpike).
Local Abbreviation episode_metrics := (episode_metrics tolR tolV thrustSpike).

Lemma map_tol_observe frames : map o_tol (map observe frames) = map inTol frames.
Proof. rewrite map_map. reflexivity. Qed.

Lemma map_spike_observe frames : map o_spike (map observe frames) = map spike frames.
Proof. rewrite map_map. reflexivity. Qed.

Lemma capturedAt_metrics frames :
  m_capturedAt (episode_metrics frames) = c_capturedAt (core_run (map observe frames)).
Proof. rewrite <- core_of_run. reflexivity. Qed.

Lemma events_metrics frames :
  m_events (episode_metrics frames) = c_events (core_run (map observe frames)).
Proof. rewrite <- core_of_run. reflexivity. Qed.

Lemma capture_inv_frames frames :
  capture_inv (map inTol frames) (core_run (map observe frames)).
Proof. rewrite <- map_tol_observe. apply capture_inv_run. Qed.

Lemma capturedAt_forEach_keeps more : forall idx st c,
  c_capturedAt st = Some c ->
  c_capturedAt (forEach_from core_body more idx st) = Some c.
Proof.
  induction more as [| o more IH]; intros idx st c Hc; [exact Hc |].
  cbn [forEach_from]. apply IH. rewrite capturedAt_body, Hc. reflexivity.
Qed.

Lemma nth_error_map_tol frames j f :
  nth_error frames j = Some f -> nth_error (map inTol frames) j = Some (inTol f).
Proof. intros H. now rewrite nth_error_map, H. Qed.

Lemma capturedAt_of_first frames idx :
  qualifies (map inTol frames) idx ->
  (forall j, (j < idx)%nat -> ~ qualifies (map inTol frames) j) ->
  m_capturedAt (episode_metrics frames) = Some (Z.of_nat idx - K + 1)%Z.
Proof.
  intros Hq Hfirst. rewrite capturedAt_metrics.
  destruct (capture_inv_frames frames) as (_ & _ & Hcap).
  destruct (c_capturedAt (core_run (map observe frames))) as [c |].
  - destruct Hcap as (idx0 & Hq0 & Hfirst0 & ->).
    destruct (Nat.lt_trichotomy idx idx0) as [Hlt | [-> | Hgt]].
    + now destruct (Hfirst0 idx Hlt).
    + reflexivity.
    + now destruct (Hfirst idx0 Hgt).
  - now destruct (Hcap idx).
Qed.

Lemma capturedAt_of_none frames :
  (forall idx, ~ qualifies (map inTol frames) idx) ->
  m_capturedAt (episode_metrics frames) = None.
Proof.
  intros Hnone. rewrite capturedAt_metrics.
  destruct (capture_inv_frames frames) as (_ & _ & Hcap).
  destruct (c_capturedAt (core_run (map observe frames))) as [c |]; [| reflexivity].
  destruct Hcap as (idx0 & Hq0 & _). now destruct (Hnone idx0).
Qed.

(** C1: with [K = 30], [capturedAt] is [idx - K + 1] for the first frame
    [idx] that ends [K] consecutive in-tolerance frames coming after an
    out-of-tolerance frame, and [null] when there is no such frame; once set
    it keeps its value whatever frames follow. An episode of 100 frames, out
    of tolerance on frames 0 to 49 and in tolerance on frames 50 to 99, has
    [capturedAt = 50]; an episode in tolerance on every frame has
    [capturedAt = null], whatever its length. *)
Theorem capturedAt_first_qualifying_run (frames : list frame) :
  let tols := map inTol frames in
  let captured := m_capturedAt (episode_metrics frames) in
  K = 30%Z /\
  (forall idx, qualifies tols idx ->
     (forall j, (j < idx)%nat -> ~ qualifies tols j) ->
     captured = Some (Z.of_nat idx - K + 1)%Z) /\
  ((forall idx, ~ qualifies tols idx) -> captured = None) /\
  (forall c, captured = Some c ->
     exists idx, qualifies tols idx /\
       (forall j, (j < idx)%nat -> ~ qualifies tols j) /\
       c = (Z.of_nat idx - K + 1)%Z) /\
  (forall c more, captured = Some c ->
     m_capturedAt (episode_metrics (frames ++ more)) = Some c) /\
  (length frames = 100%nat ->
   (forall j f, (j < 50)%nat -> nth_error frames j = Some f -> inTol f = false) ->
   (forall j f, (50 <= j)%nat -> nth_error frames j = Some f -> inTol f = true) ->
   captured = Some 50%Z) /\
  ((forall f, In f frames -> inTol f = true) -> captured = None).
Proof.
  intros tols captured. subst tols captured. split_conj.
  - reflexivity.
  - apply capturedAt_of_first.
  - apply capturedAt_of_none.
  - intros c Hc. rewrite capturedAt_metrics in Hc.
    destruct (capture_inv_frames frames) as (_ & _ & Hcap).
    rewrite Hc in Hcap. exact Hcap.
  - intros c more Hc. rewrite capturedAt_metrics in *.
    rewrite map_app. unfold core_run in *. rewrite forEach_from_app.
    now apply capturedAt_forEach_keeps.
  - intros Hlen Hout Hin.
    assert (Hnth : forall j, (j < 100)%nat -> exists f, nth_error frames j = Some f).
    { intros j Hj. destruct (nth_error frames j) as [f |] eqn:Hf; [now exists f |].
      apply nth_error_None in Hf. lia. }
    change (Some 50%Z) with (Some (Z.of_nat 79 - K + 1)%Z).
    apply capturedAt_of_first.
    + unfold qualifies; unfold_K. split_conj.
      * lia.
      * intros j Hj. destruct (Hnth j) as [f Hf]; [lia |].
        rewrite (nth_error_map_tol _ _ _ Hf). f_equal. apply (Hin j); [lia | exact Hf].
      * exists 0%nat. split; [lia |]. destruct (Hnth 0%nat) as [f Hf]; [lia |].
        rewrite (nth_error_map_tol _ _ _ Hf). f_equal. apply (Hout 0%nat); [lia | exact Hf].
    + intros j Hj (HK & Hall & _). unfold_K.
      destruct (Hnth (j + 1 - 30)%nat) as [f Hf]; [lia |].
      specialize (Hall (j + 1 - 30)%nat).
      rewrite (nth_error_map_tol _ _ _ Hf) in Hall.
      rewrite (Hout (j + 1 - 30)%nat f) in Hall by (lia || exact Hf).
      assert (Some false = Some true) by (apply Hall; lia). discriminate.
  - intros Hall. apply capturedAt_of_none.
    intros idx (_ & _ & j & _ & Hj).
    rewrite nth_error_map in Hj.
    destruct (nth_error frames j) as [f |] eqn:Hf; [| discriminate].
    apply nth_error_In in Hf. cbn in Hj. rewrite (Hall f Hf) in Hj. discriminate.
Qed.

Lemma rewardSum_body st f idx :
  rewardSum (body st f idx) = rewardSum st + nullish (f_reward f) 0.
Proof.
  unfold Analytics.body. destruct (Analytics.inTol tolR tolV f); [| reflexivity].
  destruct (capturedAt st); [reflexivity |].
  destruct (seenOut st && _); reflexivity.
Qed.

Lemma fuelSum_body st f idx : fuelSum (body st f idx) = fuelSum st + thr_of f.
Proof.
  unfold Analytics.body. destruct (Analytics.inTol tolR tolV f); [| reflexivity].
  destruct (capturedAt st); [reflexivity |].
  destruct (seenOut st && _); reflexivity.
Qed.

Lemma rewardSum_run frames :
  rewardSum (run frames) = Rsum (map (fun f => nullish (f_reward f) 0) frames).
Proof.
  induction frames as [| f frames IH] using rev_ind; [reflexivity |].
  rewrite run_snoc, rewardSum_body, IH, map_app. cbn [map].
  now rewrite Rsum_snoc.
Qed.

Lemma fuelSum_run frames : fuelSum (run frames) = Rsum (map thr_of frames).
Proof.
  induction frames as [| f frames IH] using rev_ind; [reflexivity |].
  rewrite run_snoc, fuelSum_body, IH, map_app. cbn [map].
  now rewrite Rsum_snoc.
Qed.

Lemma inTolCount_frames frames :
  inTolCount (run frames) = Z.of_nat (length (filter inTol frames)).
Proof.
  change (inTolCount (run frames)) with (c_inTolCount (core_of (run frames))).
  rewrite core_of_run, inTolCount_run. f_equal.
  induction frames as [| f frames IH]; [reflexivity |].
  cbn [map filter]. change (o_tol (observe f)) with (inTol f).
  destruct (inTol f); cbn [length]; now rewrite IH.
Qed.

Lemma pctInTol_nonempty frames :
  frames <> [] ->
  m_pctInTol (episode_metrics frames) =
  INR (length (filter inTol frames)) / INR (length frames).
Proof.
  intros Hne. unfold Analytics.episode_metrics. cbn [m_pctInTol].
  destruct (Z.ltb_spec 0 (Z.of_nat (length frames))) as [_ | Hle].
  - now rewrite inTolCount_frames, <- !INR_IZR_INZ.
  - destruct frames; [congruence | cbn [length] in Hle; lia].
Qed.

Lemma pctInTol_range frames : 0 <= m_pctInTol (episode_metrics frames) <= 1.
Proof.
  destruct frames as [| f frames']; [cbn; lra |].
  rewrite pctInTol_nonempty by discriminate.
  set (l := f :: frames').
  assert (Hlen : 0 < INR (length l)) by (apply lt_0_INR; cbn; lia).
  assert (Hcnt : 0 <= INR (length (filter inTol l))) by apply pos_INR.
  assert (Hle : INR (length (filter inTol l)) <= INR (length l))
    by (apply le_INR, filter_length_le).
  split.
  - apply Rmult_le_pos; [exact Hcnt | left; now apply Rinv_0_lt_compat].
  - apply Rmult_le_reg_r with (INR (length l)); [exact Hlen |].
    unfold Rdiv. rewrite Rmult_assoc, Rinv_l by lra. lra.
Qed.

Lemma thrust_event_iff frames idx :
  In (Event idx thrust) (m_events (episode_metrics frames)) <->
  exists j f, idx = Z.of_nat j /\ nth_error frames j = Some f /\ thrustSpike < thr_of f.
Proof.
  rewrite events_metrics.
  assert (Hfil : In (Event idx thrust) (c_events (core_run (map observe frames))) <->
                 In (Event idx thrust)
                    (filter is_thrust (c_events (core_run (map observe frames))))).
  { rewrite filter_In. cbn. tauto. }
  rewrite Hfil, thrust_events_run, map_spike_observe, In_thrust_events.
  split.
  - intros (j & Hj & Hev). rewrite nth_error_map in Hj.
    destruct (nth_error frames j) as [f |] eqn:Hf; [| discriminate].
    cbn in Hj. injection Hj as Hsp. apply Rgt_b_true in Hsp.
    exists j, f. split_conj; [injection Hev as Hidx; exact Hidx | exact Hf | exact Hsp].
  - intros (j & f & -> & Hf & Hsp). exists j. split; [| reflexivity].
    rewrite nth_error_map, Hf. cbn. f_equal. now apply Rgt_b_true.
Qed.

(** C3: for the episode without frames the pass returns [len = 0],
    [pctInTol = 0], [capturedAt = null], no event, [rewardSum = 0] and
    [fuelSum = 0] (and empty sparklines); the pass is a total function, it
    has no failing case. *)
Theorem empty_episode_metrics :
  episode_metrics [] = Metrics 0 0 None [] 0%Z 0 (Spark [] [] [] []) /\
  m_len (episode_metrics []) = 0%Z /\
  m_pctInTol (episode_metrics []) = 0 /\
  m_capturedAt (episode_metrics []) = None /\
  m_events (episode_metrics []) = [] /\
  m_rewardSum (episode_metrics []) = 0 /\
  m_fuelSum (episode_metrics []) = 0 /\
  mets tolR tolV thrustSpike [[]] = [Metrics 0 0 None [] 0%Z 0 (Spark [] [] [] [])].
Proof. split_conj; reflexivity. Qed.

(** C4: [pctInTol] is the number of frames classified in tolerance divided
    by the number of frames, and 0 for the empty episode; it lies between 0
    and 1; with 40 frames in tolerance out of 100 it is 0.4. *)
Theorem pctInTol_ratio (frames : list frame) :
  let m := episode_metrics frames in
  let count := length (filter inTol frames) in
  m_len m = Z.of_nat (length frames) /\
  (frames = [] -> m_pctInTol m = 0) /\
  (frames <> [] -> m_pctInTol m = INR count / INR (length frames)) /\
  0 <= m_pctInTol m <= 1 /\
  (length frames = 100%nat -> count = 40%nat -> m_pctInTol m = 0.4).
Proof.
  intros m count. subst m count. split_conj.
  - reflexivity.
  - intros ->. reflexivity.
  - apply pctInTol_nonempty.
  - apply pctInTol_range.
  - apply pctInTol_range.
  - intros Hlen Hcount.
    rewrite pctInTol_nonempty by (intros ->; discriminate).
    rewrite Hlen, Hcount. rewrite !INR_IZR_INZ. cbn [Z.of_nat Pos.of_succ_nat Pos.succ].
    lra.
Qed.

(** C5: the thrust magnitude of a frame is the Euclidean norm of its thrust
    vector, and 0 when the frame has no thrust; [fuelSum] adds up these
    magnitudes and [rewardSum] the rewards, an absent reward counting 0. The
    pass records a thrust event at index [idx] exactly when frame [idx] has
    a magnitude strictly above [thrustSpike], one event per such frame, in
    frame order. With a threshold that is not negative, a frame without
    thrust yields no thrust event. With threshold 0.02, thrust (0.03, 0, 0)
    yields a thrust event at the frame's index and thrust (0.01, 0, 0) does
    not. *)
Theorem thrust_event_iff_spike (frames : list frame) :
  let m := episode_metrics frames in
  (forall f, f_thrust f = None -> thr_of f = 0) /\
  (forall f x y z, f_thrust f = Some (x, y, z) ->
     thr_of f = sqrt (x * x + y * y + z * z)) /\
  m_fuelSum m = Rsum (map thr_of frames) /\
  m_rewardSum m =
    Rsum (map (fun f => match f_reward f with Some x => x | None => 0 end) frames) /\
  (forall idx, In (Event idx thrust) (m_events m) <->
     exists j f, idx = Z.of_nat j /\ nth_error frames j = Some f /\
                 thrustSpike < thr_of f) /\
  filter is_thrust (m_events m) = thrust_events 0 (map spike frames) /\
  (0 <= thrustSpike ->
   forall j f, nth_error frames j = Some f -> f_thrust f = None ->
     ~ In (Event (Z.of_nat j) thrust) (m_events m)) /\
  (thrustSpike = 0.02 ->
   forall j f, nth_error frames j = Some f ->
     (f_thrust f = Some (0.03, 0, 0) -> In (Event (Z.of_nat j) thrust) (m_events m)) /\
     (f_thrust f = Some (0.01, 0, 0) -> ~ In (Event (Z.of_nat j) thrust) (m_events m))).
Proof.
  intros m. subst m. split_conj.
  - intros f Hf. unfold thr_of. now rewrite Hf.
  - intros f x y z Hf. unfold thr_of. now rewrite Hf.
  - apply fuelSum_run.
  - apply rewardSum_run.
  - apply thrust_event_iff.
  - rewrite events_metrics, thrust_events_run, map_spike_observe. reflexivity.
  - intros Hthr j f Hf Hnone Hin.
    apply thrust_event_iff in Hin. destruct Hin as (j' & f' & Hj & Hf' & Hsp).
    apply Nat2Z.inj in Hj. subst j'. rewrite Hf in Hf'. injection Hf' as <-.
    unfold thr_of in Hsp. rewrite Hnone in Hsp. lra.
  - intros Hthr j f Hf. split.
    + intros Hu. apply thrust_event_iff. exists j, f. split_conj; try easy.
      unfold thr_of. rewrite Hu, hypot3_axis; lra.
    + intros Hu Hin.
      apply thrust_event_iff in Hin. destruct Hin as (j' & f' & Hj & Hf' & Hsp).
      apply Nat2Z.inj in Hj. subst j'. rewrite Hf in Hf'. injection Hf' as <-.
      unfold thr_of in Hsp. rewrite Hu, hypot3_axis in Hsp; lra.
Qed.

Lemma events_layout frames c :
  m_capturedAt (episode_metrics frames) = Some c ->
  exists pre post,
    map spike frames = pre ++ post /\ Z.of_nat (length pre) = (c + K)%Z /\
    pre = firstn (Z.to_nat (c + K)) (map spike frames) /\
    post = skipn (Z.to_nat (c + K)) (map spike frames) /\
    m_events (episode_metrics frames) =
      thrust_events 0 pre ++ [Event c entered_tol] ++ thrust_events (c + K) post.
Proof.
  intros Hc. rewrite capturedAt_metrics in Hc. rewrite events_metrics.
  pose proof (events_inv_run (map observe frames)) as Hinv.
  unfold events_inv in Hinv. rewrite Hc, map_spike_observe in Hinv.
  destruct Hinv as (pre & post & Hsp & Hlen & Hev).
  exists pre, post.
  assert (Hd : Z.to_nat (c + K) = length pre) by lia.
  split_conj; try assumption.
  - rewrite Hsp, Hd, firstn_app, firstn_all, Nat.sub_diag. cbn [firstn].
    now rewrite app_nil_r.
  - rewrite Hsp, Hd, skipn_app, skipn_all, Nat.sub_diag. reflexivity.
Qed.

Lemma events_ascending_iff frames c :
  m_capturedAt (episode_metrics frames) = Some c ->
  (ascending (m_events (episode_metrics frames)) <->
   forall j, (c < Z.of_nat j < c + K)%Z -> nth_error (map spike frames) j <> Some true).
Proof.
  intros Hc. destruct (events_layout frames c Hc) as (pre & post & Hsp & Hlen & _ & _ & Hev).
  rewrite Hev, ascending_iff_sorted, sorted_app, sorted_app. split.
  - intros (_ & _ & Hcross) j Hj Hspike.
    rewrite Hsp, nth_error_app1 in Hspike by lia.
    assert (Hin : In (Event (0 + Z.of_nat j) thrust) (thrust_events 0 pre))
      by (apply In_thrust_events; now exists j).
    specialize (Hcross _ (Event c entered_tol) Hin (or_introl eq_refl)).
    cbn in Hcross. lia.
  - intros Hno. split_conj.
    + apply thrust_events_sorted.
    + repeat constructor.
    + apply thrust_events_sorted.
    + intros a b [<- | []] Hb. apply thrust_events_bounds in Hb. cbn. unfold K in *. lia.
    + intros a b Ha Hb.
      pose proof (thrust_events_bounds _ _ _ Ha) as [Hta _].
      apply In_thrust_events in Ha. destruct Ha as (j & Hj & ->). cbn [ev_t] in *.
      destruct Hb as [<- | Hb].
      * cbn [ev_t]. destruct (Z.le_gt_cases (0 + Z.of_nat j) c) as [Hle | Hgt]; [exact Hle |].
        destruct (Hno j); [lia |].
        rewrite Hsp, nth_error_app1; [exact Hj | lia].
      * apply thrust_events_bounds in Hb. lia.
Qed.

(** C2 (as amended): the events are listed in the order in which the pass
    detects them. The thrust events are in ascending order of frame index.
    The [entered_tol] event, if any, bears the index [c = capturedAt] but is
    added when frame [c + K - 1] is read: it stands behind the thrust events
    of all frames up to [c + K - 1] and before those of later frames. So a
    thrust event at index [c] precedes it and both are kept, and the whole
    list is in ascending order of frame index exactly when no frame from
    [c + 1] to [c + K - 1] has a thrust event (and always when nothing was
    captured). *)
Theorem events_in_detection_order (frames : list frame) :
  let m := episode_metrics frames in
  let spikes := map spike frames in
  ascending (filter is_thrust (m_events m)) /\
  (m_capturedAt m = None ->
     m_events m = thrust_events 0 spikes /\ ascending (m_events m)) /\
  (forall c, m_capturedAt m = Some c ->
     m_events m =
       thrust_events 0 (firstn (Z.to_nat (c + K)) spikes) ++
       [Event c entered_tol] ++
       thrust_events (c + K) (skipn (Z.to_nat (c + K)) spikes) /\
     (forall ev, In ev (thrust_events 0 (firstn (Z.to_nat (c + K)) spikes)) ->
        (ev_t ev < c + K)%Z) /\
     (forall ev, In ev (thrust_events (c + K) (skipn (Z.to_nat (c + K)) spikes)) ->
        (c + K <= ev_t ev)%Z) /\
     (In (Event c thrust) (m_events m) ->
        exists l1 l2 l3,
          m_events m = l1 ++ [Event c thrust] ++ l2 ++ [Event c entered_tol] ++ l3) /\
     (ascending (m_events m) <->
      forall j, (c < Z.of_nat j < c + K)%Z -> nth_error spikes j <> Some true)).
Proof.
  intros m spikes. subst m spikes. split_conj.
  - rewrite events_metrics, thrust_events_run, ascending_iff_sorted.
    apply thrust_events_sorted.
  - intros Hnone. rewrite capturedAt_metrics in Hnone.
    pose proof (events_inv_run (map observe frames)) as Hinv.
    unfold events_inv in Hinv. rewrite Hnone, map_spike_observe in Hinv.
    rewrite events_metrics, Hinv. split; [reflexivity |].
    apply ascending_iff_sorted, thrust_events_sorted.
  - intros c Hc.
    destruct (events_layout frames c Hc) as (pre & post & Hsp & Hlen & Hpre & Hpost & Hev).
    rewrite <- Hpre, <- Hpost. split_conj.
    + exact Hev.
    + intros ev Hin. apply thrust_events_bounds in Hin. lia.
    + intros ev Hin. apply thrust_events_bounds in Hin. lia.
    + intros Hin. rewrite Hev in Hin. rewrite !in_app_iff in Hin.
      destruct Hin as [Hin | [[Heq | []] | Hin]].
      * apply in_split in Hin. destruct Hin as (l1 & l2 & Hl).
        exists l1, l2, (thrust_events (c + K) post).
        rewrite Hev, Hl, <- !app_assoc. reflexivity.
      * discriminate Heq.
      * apply thrust_events_bounds in Hin. cbn in Hin. unfold K in Hin. lia.
    + rewrite Hpre, Hpost in Hev. apply (events_ascending_iff frames c Hc).
Qed.

Lemma inTol_iff f :
  inTol f = true <-> posErr_of f <= tolR /\ Rabs (vtanErr_of f) <= tolV.
Proof.
  unfold Analytics.inTol. rewrite andb_true_iff, !Rle_b_true. reflexivity.
Qed.

Lemma counters_body st f idx :
  inTolCount (body st f idx) =
    (if inTol f then inTolCount st + 1 else inTolCount st)%Z /\
  tolStreak (body st f idx) = (if inTol f then tolStreak st + 1 else 0)%Z.
Proof.
  change (inTolCount (body st f idx)) with (c_inTolCount (core_of (body st f idx))).
  change (tolStreak (body st f idx)) with (c_tolStreak (core_of (body st f idx))).
  rewrite core_of_body, inTolCount_body, tolStreak_body. split; reflexivity.
Qed.

(** C10 (as amended): the classification is one-sided in position. The
    position error of a frame is its precomputed [pos_err] when it has one,
    and [|r| - 1.0] otherwise; it is compared with the position tolerance
    as it is, without an absolute value. So, with a tolerance that is not
    negative, every frame without precomputed [pos_err] whose distance to
    the origin is at most 1, the origin included, is in tolerance as soon as
    [|v_tan_err| <= tolV]. A frame in tolerance adds one to the in-tolerance
    count and to the streak, and makes [pctInTol] positive. *)
Theorem inTol_one_sided (f : frame) :
  (inTol f = true <-> posErr_of f <= tolR /\ Rabs (vtanErr_of f) <= tolV) /\
  (forall p, f_pos_err f = Some p -> posErr_of f = p) /\
  (f_pos_err f = None -> posErr_of f = hypot3 (f_r f) - 1) /\
  (0 <= tolR -> f_pos_err f = None -> hypot3 (f_r f) <= 1 ->
   Rabs (vtanErr_of f) <= tolV -> inTol f = true) /\
  (0 <= tolR -> f_pos_err f = None -> f_r f = (0, 0, 0) ->
   Rabs (vtanErr_of f) <= tolV -> inTol f = true) /\
  (inTol f = true -> forall st idx,
     inTolCount (body st f idx) = (inTolCount st + 1)%Z /\
     tolStreak (body st f idx) = (tolStreak st + 1)%Z) /\
  (inTol f = true -> forall frames,
     In f frames -> 0 < m_pctInTol (episode_metrics frames)).
Proof.
  assert (Hnone : f_pos_err f = None -> posErr_of f = hypot3 (f_r f) - 1).
  { intros H. unfold posErr_of. rewrite H. cbn [nullish]. lra. }
  split_conj.
  - apply inTol_iff.
  - intros p H. unfold posErr_of. now rewrite H.
  - exact Hnone.
  - intros HtolR Hpe Hr Hv. apply inTol_iff. rewrite (Hnone Hpe). lra.
  - intros HtolR Hpe Hr Hv. apply inTol_iff. rewrite (Hnone Hpe), Hr.
    rewrite hypot3_axis by lra. lra.
  - intros Hin st idx. destruct (counters_body st f idx) as [Hc Hs].
    rewrite Hin in Hc, Hs. now split.
  - intros Hin frames Hf.
    assert (Hne : frames <> []) by (intros ->; destruct Hf).
    rewrite pctInTol_nonempty by exact Hne.
    assert (Hcount : (0 < length (filter inTol frames))%nat).
    { assert (Hfil : In f (filter inTol frames)) by (apply filter_In; now split).
      destruct (filter inTol frames); [destruct Hfil | cbn; lia]. }
    assert (Hlen : (0 < length frames)%nat)
      by (destruct frames; [congruence | cbn; lia]).
    apply lt_0_INR in Hcount. apply lt_0_INR in Hlen.
    apply Rmult_lt_0_compat; [exact Hcount | now apply Rinv_0_lt_compat].
Qed.

End Claims.

(** *** The sample frames under the default configuration *)

Lemma hypot3_unit_y : hypot3 (0, 1, 0) = 1.
Proof.
  unfold hypot3. replace (0 * 0 + 1 * 1 + 0 * 0) with 1 by ring. apply sqrt_1.
Qed.

(** Without precomputed field, a frame at [(1, 0, 0)] moving at [(0, 1, 0)]
    has no tangential error. *)
Lemma vtanErr_circular thrust reward pos_err :
  vtanErr_of (Frame (1, 0, 0) (0, 1, 0) thrust reward pos_err None) = 0.
Proof.
  unfold vtanErr_of, stationKeepingErrors.
  cbn [f_v_tan_err f_r f_v option_map sk_v_tan_err nullish].
  rewrite hypot3_unit_y, (hypot3_axis 1) by lra.
  replace (dot3 (0, 1, 0) (1 / (1 + 1e-9), 0 / (1 + 1e-9), 0 / (1 + 1e-9))) with 0
    by (unfold dot3, Rdiv; ring).
  rewrite (Rmax_right 0) by lra. rewrite (Rmax_right 1e-9) by lra.
  replace (1 * 1 - 0 * 0) with 1 by ring.
  replace (1.0 / 1.0) with 1 by lra.
  rewrite sqrt_1. ring.
Qed.

Lemma observe_far :
  observe default_tolR default_tolV default_thrustSpike far_frame = Obs false false.
Proof.
  unfold observe, spike, inTol, posErr_of, thr_of, far_frame,
    default_tolR, default_thrustSpike.
  cbn [f_thrust f_pos_err f_r nullish]. rewrite hypot3_axis by lra.
  f_equal.
  - apply Rgt_b_false. lra.
  - apply andb_false_iff. left. apply Rle_b_false. lra.
Qed.

Lemma inTol_circular thrust reward :
  inTol default_tolR default_tolV (Frame (1, 0, 0) (0, 1, 0) thrust reward None None) = true.
Proof.
  unfold inTol, posErr_of, default_tolR, default_tolV.
  rewrite vtanErr_circular. cbn [f_pos_err f_r nullish].
  rewrite hypot3_axis, Rabs_R0 by lra.
  apply andb_true_iff. split; apply Rle_b_true; lra.
Qed.

Lemma observe_circ :
  observe default_tolR default_tolV default_thrustSpike circ_frame = Obs false true.
Proof.
  unfold observe. f_equal; [| apply inTol_circular].
  apply Rgt_b_false. unfold thr_of, default_thrustSpike. cbn. lra.
Qed.

Lemma observe_burn :
  observe default_tolR default_tolV default_thrustSpike burn_frame = Obs true true.
Proof.
  unfold observe. f_equal; [| apply inTol_circular].
  apply Rgt_b_true. unfold thr_of, default_thrustSpike. cbn [f_thrust burn_frame].
  rewrite hypot3_axis; lra.
Qed.

Lemma inTol_inner : inTol default_tolR default_tolV inner_frame = false.
Proof.
  unfold inTol, posErr_of, default_tolR. cbn [f_pos_err inner_frame nullish].
  apply andb_false_iff. left. apply Rle_b_false. lra.
Qed.

Lemma filter_repeat {A : Type} (p : A -> bool) (x : A) (n : nat) :
  filter p (repeat x n) = if p x then repeat x n else [].
Proof.
  induction n as [| n IH]; cbn [repeat filter]; [now destruct (p x) |].
  rewrite IH. now destruct (p x).
Qed.

Lemma observe_quiet_capture :
  map (observe default_tolR default_tolV default_thrustSpike) quiet_capture =
  Obs false false :: repeat (Obs false true) 30.
Proof.
  unfold quiet_capture. cbn [map]. now rewrite map_repeat, observe_far, observe_circ.
Qed.

Lemma observe_late_burn :
  map (observe default_tolR default_tolV default_thrustSpike) late_burn =
  Obs false false :: repeat (Obs false true) 29 ++ [Obs true true].
Proof.
  unfold late_burn. cbn [map].
  rewrite map_app, map_repeat, observe_far, observe_circ. cbn [map].
  now rewrite observe_burn.
Qed.

Lemma events_late_burn :
  m_events (episode_metrics default_tolR default_tolV default_thrustSpike late_burn) =
  [Event 30 thrust; Event 1 entered_tol].
Proof. rewrite events_metrics, observe_late_burn. vm_compute. reflexivity. Qed.

Lemma capturedAt_late_burn :
  m_capturedAt (episode_metrics default_tolR default_tolV default_thrustSpike late_burn) =
  Some 1%Z.
Proof. rewrite capturedAt_metrics, observe_late_burn. vm_compute. reflexivity. Qed.

Lemma capturedAt_quiet_capture :
  m_capturedAt (episode_metrics default_tolR default_tolV default_thrustSpike quiet_capture) =
  Some 1%Z.
Proof. rewrite capturedAt_metrics, observe_quiet_capture. vm_compute. reflexivity. Qed.

Lemma inTol_far : inTol default_tolR default_tolV far_frame = false.
Proof. exact (f_equal o_tol observe_far). Qed.

Lemma inTol_circ : inTol default_tolR default_tolV circ_frame = true.
Proof. apply inTol_circular. Qed.

Lemma nth_error_repeat_eq {A : Type} (x y : A) n j :
  nth_error (repeat x n) j = Some y -> y = x.
Proof. intros H. apply nth_error_In in H. now apply repeat_spec in H. Qed.

Lemma capturedAt_first_qualifying_run_witness :
  length approach = 100%nat /\
  m_capturedAt (episode_metrics default_tolR default_tolV default_thrustSpike approach) =
  Some 50%Z.
Proof.
  split; [reflexivity |].
  destruct (capturedAt_first_qualifying_run default_tolR default_tolV
              default_thrustSpike approach) as (_ & _ & _ & _ & _ & H & _).
  apply H.
  - reflexivity.
  - intros j f Hj Hf. unfold approach in Hf.
    rewrite nth_error_app1 in Hf by (rewrite repeat_length; exact Hj).
    apply nth_error_repeat_eq in Hf. subst f. apply inTol_far.
  - intros j f Hj Hf. unfold approach in Hf.
    rewrite nth_error_app2 in Hf by (rewrite repeat_length; exact Hj).
    apply nth_error_repeat_eq in Hf. subst f. apply inTol_circ.
Defined.

Lemma events_in_detection_order_witness :
  m_capturedAt (episode_metrics default_tolR default_tolV default_thrustSpike
                  quiet_capture) = Some 1%Z /\
  ascending (m_events (episode_metrics default_tolR default_tolV default_thrustSpike
                         quiet_capture)).
Proof.
  split; [apply capturedAt_quiet_capture |].
  destruct (events_in_detection_order default_tolR default_tolV default_thrustSpike
              quiet_capture) as (_ & _ & Hc).
  destruct (Hc 1%Z capturedAt_quiet_capture) as (_ & _ & _ & _ & Hasc).
  apply Hasc. intros j _ Hj.
  rewrite <- (map_spike_observe default_tolR default_tolV), observe_quiet_capture in Hj.
  apply nth_error_In in Hj. vm_compute in Hj.
  repeat (destruct Hj as [Hj | Hj]; [discriminate Hj |]). exact Hj.
Defined.

(** C2, the claim as stated fails. Frame 0 is out of tolerance, frames 1 to
    30 are in tolerance, and frame 30 has a thrust above the threshold: when
    frame 30 is read the pass first records the thrust event of index 30 and
    then the capture, which it dates back to index 1. *)
Lemma events_late_burn_not_ascending :
  m_events (episode_metrics default_tolR default_tolV default_thrustSpike late_burn) =
    [Event 30 thrust; Event 1 entered_tol] /\
  ~ ascending
      (m_events (episode_metrics default_tolR default_tolV default_thrustSpike late_burn)).
Proof.
  split; [apply events_late_burn |]. rewrite events_late_burn. intros H.
  specialize (H 0%nat 1%nat (Event 30 thrust) (Event 1 entered_tol)).
  cbn in H. specialize (H ltac:(lia) eq_refl eq_refl). lia.
Qed.

Lemma pctInTol_ratio_witness :
  m_pctInTol (episode_metrics default_tolR default_tolV default_thrustSpike
                (repeat circ_frame 40 ++ repeat far_frame 60)) = 0.4.
Proof.
  destruct (pctInTol_ratio default_tolR default_tolV default_thrustSpike
              (repeat circ_frame 40 ++ repeat far_frame 60)) as (_ & _ & _ & _ & H).
  apply H.
  - reflexivity.
  - rewrite filter_app, !filter_repeat, inTol_circ, inTol_far, app_nil_r.
    apply repeat_length.
Defined.

Lemma thrust_event_iff_spike_witness :
  In (Event 0 thrust)
     (m_events (episode_metrics default_tolR default_tolV 0.02 [burn_frame; coast_frame])) /\
  ~ In (Event 1 thrust)
     (m_events (episode_metrics default_tolR default_tolV 0.02 [burn_frame; coast_frame])).
Proof.
  destruct (thrust_event_iff_spike default_tolR default_tolV 0.02
              [burn_frame; coast_frame]) as (_ & _ & _ & _ & _ & _ & _ & H).
  split.
  - apply (H eq_refl 0%nat burn_frame eq_refl). reflexivity.
  - apply (H eq_refl 1%nat coast_frame eq_refl). reflexivity.
Defined.

Lemma inTol_one_sided_witness :
  hypot3 (f_r origin_frame) = 0 /\
  inTol default_tolR default_tolV origin_frame = true.
Proof.
  split; [cbn [f_r origin_frame]; apply hypot3_axis; lra |].
  destruct (inTol_one_sided default_tolR default_tolV default_thrustSpike origin_frame)
    as (_ & _ & _ & _ & H & _).
  apply H.
  - unfold default_tolR. lra.
  - reflexivity.
  - reflexivity.
  - unfold vtanErr_of, default_tolV. cbn [f_v_tan_err origin_frame].
    rewrite Rabs_R0. lra.
Defined.

(** C10, the claim as stated fails. A frame at distance 0.5 from the origin,
    inside the circle of radius 1.0, whose precomputed [pos_err] is 0.1 and
    whose precomputed [v_tan_err] is 0, is out of tolerance under the
    default tolerances: the precomputed position error is the one compared. *)
Lemma inTol_inner_frame_out :
  hypot3 (f_r inner_frame) = 0.5 /\
  hypot3 (f_r inner_frame) < 1 /\
  Rabs (vtanErr_of inner_frame) <= default_tolV /\
  inTol default_tolR default_tolV inner_frame = false.
Proof.
  assert (Hr : hypot3 (f_r inner_frame) = 0.5)
    by (cbn [f_r inner_frame]; apply hypot3_axis; lra).
  split_conj.
  - exact Hr.
  - rewrite Hr. lra.
  - unfold vtanErr_of, default_tolV. cbn [f_v_tan_err inner_frame].
    rewrite Rabs_R0. lra.
  - apply inTol_inner.
Qed.

End AnalyticsFacts.

(** ** More on the Kepler solver and the planet positions *)

Module KeplerMore.
Import Kepler.

Lemma newton_rounds_fixed M e n E :
  newton_update M e E = E -> newton_rounds M e n E = E.
Proof.
  intros Hfix. induction n as [| n IH]; [reflexivity |].
  cbn [newton_rounds]. rewrite Hfix. exact IH.
Qed.

Lemma newton_update_root M e E : newton_f M e E = 0 -> newton_update M e E = E.
Proof. intros Hf. unfold newton_update. rewrite Hf. unfold Rdiv. ring. Qed.










(** The square of the distance to the focus, through the three rotations. *)
Lemma rotation_norm cO sO ci si cw sw cn sn r :
  sO * sO + cO * cO = 1 -> si * si + ci * ci = 1 ->
  sw * sw + cw * cw = 1 -> sn * sn + cn * cn = 1 ->
  let x_orb := r * cn in
  let y_orb := r * sn in
  let X1 := cw * x_orb - sw * y_orb in
  let Y1 := sw * x_orb + cw * y_orb in
  let x := cO * X1 - sO * (ci * Y1) in
  let y := sO * X1 + cO * (ci * Y1) in
  let z := si * Y1 in
  x * x + y * y + z * z = r * r.
Proof.
  intros HO Hi Hw Hn x_orb y_orb X1 Y1 x y z.
  replace (x * x + y * y + z * z)
    with ((sO * sO + cO * cO) * (X1 * X1 + ci * ci * (Y1 * Y1)) + si * si * (Y1 * Y1))
    by (subst x y z; ring).
  rewrite HO.
  replace (1 * (X1 * X1 + ci * ci * (Y1 * Y1)) + si * si * (Y1 * Y1))
    with (X1 * X1 + (si * si + ci * ci) * (Y1 * Y1)) by ring.
  rewrite Hi.
  replace (X1 * X1 + 1 * (Y1 * Y1))
    with ((sw * sw + cw * cw) * (x_orb * x_orb + y_orb * y_orb))
    by (subst X1 Y1; ring).
  rewrite Hw.
  replace (1 * (x_orb * x_orb + y_orb * y_orb)) with (r * r * (sn * sn + cn * cn))
    by (subst x_orb y_orb; ring).
  rewrite Hn. ring.
Qed.

Lemma sin_cos_square x : sin x * sin x + cos x * cos x = 1.
Proof. pose proof (sin2_cos2 x) as H. unfold Rsqr in H. exact H. Qed.

Lemma position_of_E_norm el E :
  let '(x, y, z) := position_of_E el E in
  x * x + y * y + z * z =
  (el_a el * (1 - el_e el * cos E)) * (el_a el * (1 - el_e el * cos E)).
Proof.
  unfold position_of_E. cbv zeta.
  apply (rotation_norm (cos (el_Omega el)) (sin (el_Omega el))
           (cos (el_i el)) (sin (el_i el)) (cos (el_omega el)) (sin (el_omega el)));
    apply sin_cos_square.
Qed.

Lemma newton_fp_seed_nonzero M e : Rabs e < 1 -> newton_fp e M <> 0.
Proof.
  intros He. apply Rabs_def2 in He. destruct He as [Hhi Hlo].
  destruct (COS_bound M) as [Hc1 Hc2]. unfold newton_fp.
  destruct (Rle_dec 0 e) as [Hpos | Hneg]; nra.
Qed.

Lemma newton_rounds_checked_fixed M e n E :
  newton_f M e E = 0 -> newton_fp e E <> 0 ->
  newton_rounds_checked M e n E = Some E.
Proof.
  intros Hf Hfp. induction n as [| n IH]; [reflexivity |].
  cbn [newton_rounds_checked]. unfold div_checked.
  destruct (Req_dec_T (newton_fp e E) 0) as [Hz | _]; [contradiction |].
  rewrite Hf. replace (E - 0 / newton_fp e E) with E by (unfold Rdiv; ring).
  exact IH.
Qed.

(** X1: for [|e| < 1], a seed that already solves Kepler's equation is
    returned as it is: when [e sin M = 0], in particular on a circular orbit
    ([e = 0]) and at [M = 0] or [M = pi], the eight rounds leave [E = M],
    which is an exact root, and no round divides by zero. *)
Theorem keplerE_solved_seed (M e : R) (He : Rabs e < 1) (Hroot : e * sin M = 0) :
  keplerE M e = M /\ keplerE M e - e * sin (keplerE M e) - M = 0 /\
  keplerE_checked M e = Some M.
Proof.
  assert (Hf : newton_f M e M = 0) by (unfold newton_f; lra).
  assert (HE : keplerE M e = M).
  { unfold keplerE. now apply newton_rounds_fixed, newton_update_root. }
  split_conj.
  - exact HE.
  - rewrite HE. lra.
  - unfold keplerE_checked. apply newton_rounds_checked_fixed; [exact Hf |].
    now apply newton_fp_seed_nonzero.
Qed.

Lemma keplerE_solved_seed_witness :
  Rabs 0.5 < 1 /\ keplerE PI 0.5 = PI /\ keplerE 1 0 = 1.
Proof.
  assert (H5 : Rabs 0.5 < 1) by (rewrite Rabs_right; lra).
  assert (H0 : Rabs 0 < 1) by (rewrite Rabs_R0; lra).
  split_conj.
  - exact H5.
  - apply (keplerE_solved_seed PI 0.5 H5). rewrite sin_PI. ring.
  - apply (keplerE_solved_seed 1 0 H0). ring.
Defined.



(** X4: for an eccentricity [0 <= e < 1], where the solver divides by no
    zero and [sqrt (1 - e^2)] is the root of a positive number, the point
    returned by [elementsToPositionAU] lies at distance [|a (1 - e cos E)|]
    from the origin, [E] being the solver's result: the three rotations
    keep the length. For [a >= 0] this distance is between [a (1 - e)] and
    [a (1 + e)]. *)
Theorem elementsToPositionAU_distance (el : elements) (He : 0 <= el_e el < 1) :
  let E := keplerE (el_M el) (el_e el) in
  keplerE_checked (el_M el) (el_e el) = Some E /\
  0 < 1 - el_e el * el_e el /\
  Analytics.hypot3 (elementsToPositionAU el) = Rabs (el_a el * (1 - el_e el * cos E)) /\
  (0 <= el_a el ->
   el_a el * (1 - el_e el) <= Analytics.hypot3 (elementsToPositionAU el)
     <= el_a el * (1 + el_e el)).
Proof.
  intros E.
  assert (Hd : Analytics.hypot3 (elementsToPositionAU el) =
               Rabs (el_a el * (1 - el_e el * cos E))).
  { unfold elementsToPositionAU. fold E.
    pose proof (position_of_E_norm el E) as Hn.
    destruct (position_of_E el E) as [[x y] z].
    unfold Analytics.hypot3. rewrite Hn. apply sqrt_Rsqr_abs. }
  split_conj.
  - unfold keplerE_checked, E, keplerE.
    now apply KeplerFacts.newton_rounds_checked_ok.
  - nra.
  - exact Hd.
  - intros Ha. rewrite Hd.
  destruct (COS_bound E) as [Hlo Hhi].
  assert (H1 : el_e el * cos E <= el_e el) by nra.
  assert (H2 : - el_e el <= el_e el * cos E) by nra.
  rewrite Rabs_right by (apply Rle_ge; nra).
  split; nra.
Qed.

Lemma elementsToPositionAU_distance_witness :
  0 <= el_e (Elements 1 0.5 0 0 0 2) < 1 /\
  1 * (1 - 0.5) <= Analytics.hypot3 (elementsToPositionAU (Elements 1 0.5 0 0 0 2))
    <= 1 * (1 + 0.5).
Proof.
  assert (He : 0 <= el_e (Elements 1 0.5 0 0 0 2) < 1) by (cbn [el_e]; lra).
  split; [exact He |].
  apply (elementsToPositionAU_distance (Elements 1 0.5 0 0 0 2) He). cbn [el_a]. lra.
Defined.

End KeplerMore.

(** ** The orbital elements of a state vector *)

Module OrbitFacts.
Import Analytics Orbit AnalyticsFacts.

Lemma sum_squares_nonneg x y z : 0 <= x * x + y * y + z * z.
Proof. nra. Qed.

Lemma hypot3_nonneg u : 0 <= hypot3 u.
Proof. destruct u as [[x y] z]. apply sqrt_pos. Qed.

Lemma hypot3_square x y z :
  hypot3 (x, y, z) * hypot3 (x, y, z) = x * x + y * y + z * z.
Proof. unfold hypot3. apply sqrt_sqrt, sum_squares_nonneg. Qed.

Lemma hypot3_zero_iff x y z : hypot3 (x, y, z) = 0 <-> x = 0 /\ y = 0 /\ z = 0.
Proof.
  split.
  - intros H. pose proof (hypot3_square x y z) as Hs. rewrite H in Hs.
    assert (x * x = 0 /\ y * y = 0 /\ z * z = 0) as (Hx & Hy & Hz) by nra.
    split_conj; nra.
  - intros (-> & -> & ->). unfold hypot3.
    replace (0 * 0 + 0 * 0 + 0 * 0) with 0 by ring. apply sqrt_0.
Qed.

Lemma oe_energy_eq r v mu :
  oe_energy (orbitalElements r v mu) = 0.5 * vecLen v * vecLen v - mu / vecLen r.
Proof. destruct r as [[r0 r1] r2], v as [[v0 v1] v2]. reflexivity. Qed.

Lemma oe_a_eq r v mu :
  oe_a (orbitalElements r v mu) = - mu / (2 * oe_energy (orbitalElements r v mu)).
Proof. destruct r as [[r0 r1] r2], v as [[v0 v1] v2]. reflexivity. Qed.

Lemma oe_hmag_eq r v mu : oe_hmag (orbitalElements r v mu) = vecLen (cross r v).
Proof. destruct r as [[r0 r1] r2], v as [[v0 v1] v2]. reflexivity. Qed.

Lemma square_eq_nonneg a b : 0 <= a -> 0 <= b -> a * a = b * b -> a = b.
Proof. intros Ha Hb H. nra. Qed.

(** The square of the eccentricity, for a position away from the origin. *)
Lemma eccentricity_square r v mu :
  0 < vecLen r -> mu <> 0 ->
  let o := orbitalElements r v mu in
  oe_e o * oe_e o = 1 + 2 * oe_energy o * (oe_hmag o * oe_hmag o) / (mu * mu).
Proof.
  destruct r as [[r0 r1] r2], v as [[v0 v1] v2]. intros Hr Hmu.
  unfold orbitalElements, vecLen in *. cbn [cross oe_e oe_energy oe_hmag].
  replace (0.5 * hypot3 (v0, v1, v2) * hypot3 (v0, v1, v2))
    with (0.5 * (hypot3 (v0, v1, v2) * hypot3 (v0, v1, v2))) by ring.
  rewrite !hypot3_square.
  pose proof (hypot3_square r0 r1 r2) as Hrho.
  set (rho := hypot3 (r0, r1, r2)) in *.
  set (h0 := r1 * v2 - r2 * v1). set (h1 := r2 * v0 - r0 * v2).
  set (h2 := r0 * v1 - r1 * v0).
  set (w0 := v1 * h2 - v2 * h1). set (w1 := v2 * h0 - v0 * h2).
  set (w2 := v0 * h1 - v1 * h0).
  set (hh := h0 * h0 + h1 * h1 + h2 * h2).
  set (vv := v0 * v0 + v1 * v1 + v2 * v2).
  assert (Hww : w0 * w0 + w1 * w1 + w2 * w2 = vv * hh)
    by (subst w0 w1 w2 h0 h1 h2 hh vv; ring).
  assert (Hwr : w0 * r0 + w1 * r1 + w2 * r2 = hh)
    by (subst w0 w1 w2 h0 h1 h2 hh; ring).
  replace ((w0 / mu - r0 / rho) * (w0 / mu - r0 / rho) +
           (w1 / mu - r1 / rho) * (w1 / mu - r1 / rho) +
           (w2 / mu - r2 / rho) * (w2 / mu - r2 / rho))
    with ((w0 * w0 + w1 * w1 + w2 * w2) / (mu * mu)
          - 2 * (w0 * r0 + w1 * r1 + w2 * r2) / (mu * rho)
          + (r0 * r0 + r1 * r1 + r2 * r2) / (rho * rho))
    by (field; split; lra).
  rewrite Hww, Hwr, <- Hrho. clearbody vv hh rho.
  replace 0.5 with (/ 2) by lra. field. split; lra.
Qed.

(** X5: [hmag] is the length of [r x v]: the vector is perpendicular to [r]
    and to [v], and [hmag^2 = |r|^2 |v|^2 - (r . v)^2]; so [hmag = |r| |v|]
    when the velocity is perpendicular to the position, and [hmag = 0] when
    it is along it. *)
Theorem orbitalElements_hmag (r v : vec3) (mu : R) :
  let o := orbitalElements r v mu in
  dot3 r (cross r v) = 0 /\ dot3 v (cross r v) = 0 /\
  0 <= oe_hmag o /\
  oe_hmag o * oe_hmag o =
    vecLen r * vecLen r * (vecLen v * vecLen v) - dot3 r v * dot3 r v /\
  (dot3 r v = 0 -> oe_hmag o = vecLen r * vecLen v).
Proof.
  destruct r as [[r0 r1] r2], v as [[v0 v1] v2]. intros o. subst o.
  assert (Hsq : oe_hmag (orbitalElements (r0, r1, r2) (v0, v1, v2) mu) *
                oe_hmag (orbitalElements (r0, r1, r2) (v0, v1, v2) mu) =
                vecLen (r0, r1, r2) * vecLen (r0, r1, r2) *
                (vecLen (v0, v1, v2) * vecLen (v0, v1, v2)) -
                dot3 (r0, r1, r2) (v0, v1, v2) * dot3 (r0, r1, r2) (v0, v1, v2)).
  { unfold orbitalElements, vecLen. cbn [cross oe_hmag dot3].
    rewrite !hypot3_square. ring. }
  split_conj.
  - cbn. ring.
  - cbn. ring.
  - apply hypot3_nonneg.
  - exact Hsq.
  - intros Hdot. rewrite Hdot in Hsq.
    apply square_eq_nonneg.
    + apply hypot3_nonneg.
    + apply Rmult_le_pos; apply hypot3_nonneg.
    + rewrite Hsq. ring.
Qed.

Lemma orbitalElements_hmag_witness :
  oe_hmag (orbitalElements (1, 0, 0) (0, 1, 0) 1) = vecLen (1, 0, 0) * vecLen (0, 1, 0).
Proof.
  apply (orbitalElements_hmag (1, 0, 0) (0, 1, 0) 1). cbn. ring.
Defined.

(** X6: away from the origin ([r <> 0]), for [mu > 0] and a non-zero
    energy, [energy = - mu / (2 a)], and the semi-major axis is positive
    exactly when the energy is negative (bound orbit); the energy itself is
    [|v|^2 / 2 - mu / |r|]. *)
Theorem orbitalElements_energy_axis (r v : vec3) (mu : R)
    (Hr : 0 < vecLen r)
    (Hmu : 0 < mu) (Henergy : oe_energy (orbitalElements r v mu) <> 0) :
  let o := orbitalElements r v mu in
  oe_energy o = vecLen v * vecLen v / 2 - mu / vecLen r /\
  oe_energy o = - mu / (2 * oe_a o) /\
  (0 < oe_a o <-> oe_energy o < 0).
Proof.
  destruct r as [[r0 r1] r2], v as [[v0 v1] v2]. intros o. subst o.
  unfold orbitalElements in *. cbn [cross oe_energy oe_a] in *.
  set (en := 0.5 * vecLen (v0, v1, v2) * vecLen (v0, v1, v2) - mu / vecLen (r0, r1, r2)) in *.
  split_conj.
  - subst en. replace 0.5 with (/ 2) by lra. unfold Rdiv. ring.
  - field. split; lra.
  - split; intros H.
    + destruct (Rtotal_order en 0) as [Hlt | [Heq | Hgt]]; [exact Hlt | contradiction |].
      exfalso. assert (Hneg : - mu / (2 * en) < 0).
      { unfold Rdiv. apply Rlt_le_trans with (- mu * 0); [| lra].
        apply Rmult_lt_gt_compat_neg_l; [lra |].
        apply Rinv_0_lt_compat. lra. }
      lra.
    + unfold Rdiv. replace (- mu * / (2 * en)) with (mu * / (2 * - en)) by (field; lra).
      apply Rmult_lt_0_compat; [lra |]. apply Rinv_0_lt_compat. lra.
Qed.

Lemma orbitalElements_energy_axis_witness :
  0 < oe_a (orbitalElements (1, 0, 0) (0, 1, 0) 1) <->
  oe_energy (orbitalElements (1, 0, 0) (0, 1, 0) 1) < 0.
Proof.
  assert (Hen : oe_energy (orbitalElements (1, 0, 0) (0, 1, 0) 1) = - (1 / 2)).
  { rewrite oe_energy_eq. unfold vecLen.
    rewrite (hypot3_axis 1), hypot3_unit_y by lra. lra. }
  assert (Hr : 0 < vecLen (1, 0, 0)) by (unfold vecLen; rewrite hypot3_axis; lra).
  assert (Hmu : 0 < 1) by lra.
  assert (Hne : oe_energy (orbitalElements (1, 0, 0) (0, 1, 0) 1) <> 0)
    by (rewrite Hen; lra).
  apply (orbitalElements_energy_axis (1, 0, 0) (0, 1, 0) 1 Hr Hmu Hne).
Defined.

(** X7: away from the origin and for [mu <> 0], the eccentricity satisfies
    [e^2 = 1 + 2 energy hmag^2 / mu^2]; it is never negative, and with a
    non-zero angular momentum it is below 1 exactly when the energy is
    negative. *)
Theorem orbitalElements_eccentricity (r v : vec3) (mu : R)
    (Hr : 0 < vecLen r) (Hmu : mu <> 0) :
  let o := orbitalElements r v mu in
  0 <= oe_e o /\
  oe_e o * oe_e o = 1 + 2 * oe_energy o * (oe_hmag o * oe_hmag o) / (mu * mu) /\
  (oe_hmag o <> 0 -> (oe_e o < 1 <-> oe_energy o < 0)).
Proof.
  intros o.
  assert (He0 : 0 <= oe_e o).
  { subst o. destruct r as [[r0 r1] r2], v as [[v0 v1] v2].
    unfold orbitalElements. cbn [oe_e cross]. apply hypot3_nonneg. }
  pose proof (eccentricity_square r v mu Hr Hmu) as Hsq. fold o in Hsq.
  split_conj; try assumption.
  intros Hh.
  assert (Hpos : 0 < oe_hmag o * oe_hmag o / (mu * mu)).
  { apply Rmult_lt_0_compat; [nra |]. apply Rinv_0_lt_compat. nra. }
  set (k := oe_hmag o * oe_hmag o / (mu * mu)) in *.
  assert (Hsq' : oe_e o * oe_e o = 1 + 2 * oe_energy o * k).
  { rewrite Hsq. subst k. unfold Rdiv. ring. }
  split; intros H; nra.
Qed.

Lemma orbitalElements_eccentricity_witness :
  0 <= oe_e (orbitalElements (1, 0, 0) (0, 1, 0) 1).
Proof.
  assert (Hr : 0 < vecLen (1, 0, 0)) by (unfold vecLen; rewrite hypot3_axis; lra).
  assert (Hmu : 1 <> 0) by lra.
  apply (orbitalElements_eccentricity (1, 0, 0) (0, 1, 0) 1 Hr Hmu).
Defined.

(** X8: on a circular orbit, that is [r . v = 0] and [|v|^2 |r| = mu] with
    [r <> 0] and [mu > 0], the elements are [a = |r|], [e = 0],
    [energy = - mu / (2 |r|)]. *)
Theorem orbitalElements_circular (r v : vec3) (mu : R)
    (Hr : 0 < vecLen r) (Hmu : 0 < mu)
    (Hperp : dot3 r v = 0) (Hspeed : vecLen v * vecLen v * vecLen r = mu) :
  let o := orbitalElements r v mu in
  oe_a o = vecLen r /\ oe_e o = 0 /\ oe_energy o = - mu / (2 * vecLen r).
Proof.
  intros o.
  assert (Hmu' : mu <> 0) by lra.
  pose proof (eccentricity_square r v mu Hr Hmu') as Hsq. fold o in Hsq.
  assert (Hen : oe_energy o = - mu / (2 * vecLen r)).
  { subst o. destruct r as [[r0 r1] r2], v as [[v0 v1] v2].
    unfold orbitalElements. cbn [cross oe_energy]. rewrite <- Hspeed.
    replace 0.5 with (/ 2) by lra. field. lra. }
  assert (Ha : oe_a o = vecLen r).
  { assert (Hdef : oe_a o = - mu / (2 * oe_energy o)).
    { subst o. destruct r as [[r0 r1] r2], v as [[v0 v1] v2]. reflexivity. }
    rewrite Hdef, Hen. field. split; lra. }
  assert (Hh : oe_hmag o * oe_hmag o = vecLen r * vecLen r * (vecLen v * vecLen v)).
  { subst o. destruct r as [[r0 r1] r2], v as [[v0 v1] v2].
    unfold orbitalElements, vecLen in *. cbn [cross oe_hmag dot3] in *.
    rewrite !hypot3_square.
    replace ((r1 * v2 - r2 * v1) * (r1 * v2 - r2 * v1) +
             (r2 * v0 - r0 * v2) * (r2 * v0 - r0 * v2) +
             (r0 * v1 - r1 * v0) * (r0 * v1 - r1 * v0))
      with ((r0 * r0 + r1 * r1 + r2 * r2) * (v0 * v0 + v1 * v1 + v2 * v2)
            - (r0 * v0 + r1 * v1 + r2 * v2) * (r0 * v0 + r1 * v1 + r2 * v2)) by ring.
    rewrite Hperp. ring. }
  split_conj; try assumption.
  assert (He2 : oe_e o * oe_e o = 0).
  { rewrite Hsq, Hen, Hh.
    replace (vecLen r * vecLen r * (vecLen v * vecLen v))
      with (vecLen r * (vecLen v * vecLen v * vecLen r)) by ring.
    rewrite Hspeed. field. split; lra. }
  nra.
Qed.

Lemma orbitalElements_circular_witness :
  oe_a (orbitalElements (2, 0, 0) (0, sqrt (1 / 2), 0) 1) = vecLen (2, 0, 0) /\
  oe_e (orbitalElements (2, 0, 0) (0, sqrt (1 / 2), 0) 1) = 0.
Proof.
  assert (H2 : vecLen (2, 0, 0) = 2) by (unfold vecLen; apply hypot3_axis; lra).
  assert (Hv : vecLen (0, sqrt (1 / 2), 0) * vecLen (0, sqrt (1 / 2), 0) = 1 / 2).
  { unfold vecLen. rewrite hypot3_square.
    replace (0 * 0 + sqrt (1 / 2) * sqrt (1 / 2) + 0 * 0)
      with (sqrt (1 / 2) * sqrt (1 / 2)) by ring.
    apply sqrt_sqrt. lra. }
  assert (Hr : 0 < vecLen (2, 0, 0)) by (rewrite H2; lra).
  assert (Hmu : 0 < 1) by lra.
  assert (Hperp : dot3 (2, 0, 0) (0, sqrt (1 / 2), 0) = 0) by (cbn; ring).
  assert (Hspeed : vecLen (0, sqrt (1 / 2), 0) * vecLen (0, sqrt (1 / 2), 0) *
                   vecLen (2, 0, 0) = 1) by (rewrite Hv, H2; lra).
  destruct (orbitalElements_circular (2, 0, 0) (0, sqrt (1 / 2), 0) 1
              Hr Hmu Hperp Hspeed) as (Ha & He & _).
  split; [exact Ha | exact He].
Defined.

End OrbitFacts.

(** ** The station-keeping errors of a frame *)

Module StationFacts.
Import Analytics AnalyticsFacts OrbitFacts.

Lemma cauchy_schwarz3 v0 v1 v2 r0 r1 r2 :
  (v0 * r0 + v1 * r1 + v2 * r2) * (v0 * r0 + v1 * r1 + v2 * r2) <=
  (v0 * v0 + v1 * v1 + v2 * v2) * (r0 * r0 + r1 * r1 + r2 * r2).
Proof.
  assert (H : (v0 * v0 + v1 * v1 + v2 * v2) * (r0 * r0 + r1 * r1 + r2 * r2) -
              (v0 * r0 + v1 * r1 + v2 * r2) * (v0 * r0 + v1 * r1 + v2 * r2) =
              (v0 * r1 - v1 * r0) * (v0 * r1 - v1 * r0) +
              (v1 * r2 - v2 * r1) * (v1 * r2 - v2 * r1) +
              (v2 * r0 - v0 * r2) * (v2 * r0 - v0 * r2)) by ring.
  pose proof (sum_squares_nonneg (v0 * r1 - v1 * r0) (v1 * r2 - v2 * r1)
                (v2 * r0 - v0 * r2)).
  lra.
Qed.

(** The radial component is never larger than the speed: the unit vector is
    divided by [rmag + 1e-9]. *)
Lemma v_rad_square_le r v :
  let d := hypot3 r + 1e-9 in
  let '(r0, r1, r2) := r in
  let v_rad := dot3 v (r0 / d, r1 / d, r2 / d) in
  v_rad * v_rad <= hypot3 v * hypot3 v.
Proof.
  destruct r as [[r0 r1] r2], v as [[v0 v1] v2]. cbv zeta.
  pose proof (hypot3_nonneg (r0, r1, r2)) as Hrho.
  pose proof (hypot3_square r0 r1 r2) as Hrr.
  rewrite hypot3_square.
  set (rho := hypot3 (r0, r1, r2)) in *.
  set (d := rho + 1e-9).
  assert (Hd : 0 < d) by (subst d; lra).
  set (vr := v0 * r0 + v1 * r1 + v2 * r2).
  assert (Hvr : dot3 (v0, v1, v2) (r0 / d, r1 / d, r2 / d) = vr / d)
    by (unfold dot3, Rdiv; subst vr; ring).
  rewrite Hvr.
  pose proof (cauchy_schwarz3 v0 v1 v2 r0 r1 r2) as Hcs. fold vr in Hcs.
  rewrite <- Hrr in Hcs.
  set (vv := v0 * v0 + v1 * v1 + v2 * v2) in *.
  assert (Hvv : 0 <= vv) by (subst vv; apply sum_squares_nonneg).
  assert (Hdd : rho * rho <= d * d) by (subst d; nra).
  assert (Hle : vr * vr <= vv * (d * d)) by nra.
  replace (vr / d * (vr / d)) with (vr * vr / (d * d)) by (field; lra).
  apply Rmult_le_reg_r with (d * d); [nra |].
  replace (vr * vr / (d * d) * (d * d)) with (vr * vr) by (field; lra).
  exact Hle.
Qed.

Lemma v_circ_positive R0 : 0 < sqrt (1.0 / Rmax 1e-9 R0).
Proof.
  apply sqrt_lt_R0. pose proof (Rmax_l 1e-9 R0).
  apply Rmult_lt_0_compat; [lra |]. apply Rinv_0_lt_compat. lra.
Qed.

(** X9: for every frame the errors are defined; the radial and tangential
    components split the speed, [v_rad^2 + v_tan^2 = |v|^2], with
    [v_tan >= 0] and [|v_rad| <= |v|] (in exact arithmetic the clamp
    [Math.max(0, ...)] is never active), and the reference speed [v_circ]
    is positive whatever [R0] is. *)
Theorem stationKeepingErrors_components (f : frame) (R0 : R) :
  exists er,
    stationKeepingErrors (Some f) R0 = Some er /\
    sk_rmag er = hypot3 (f_r f) /\
    sk_pos_err er = hypot3 (f_r f) - R0 /\
    0 <= sk_v_tan er /\
    sk_v_rad er * sk_v_rad er + sk_v_tan er * sk_v_tan er =
      hypot3 (f_v f) * hypot3 (f_v f) /\
    Rabs (sk_v_rad er) <= hypot3 (f_v f) /\
    sk_v_tan er <= hypot3 (f_v f) /\
    sk_v_tan_err er = sk_v_tan er - sk_v_circ er /\
    0 < sk_v_circ er.
Proof.
  destruct f as [r v th rw pe ve].
  pose proof (v_rad_square_le r v) as Hle.
  destruct r as [[r0 r1] r2]. cbv zeta in Hle.
  unfold stationKeepingErrors. cbn [f_r f_v].
  set (d := hypot3 (r0, r1, r2) + 1e-9) in *.
  set (v_rad := dot3 v (r0 / d, r1 / d, r2 / d)) in *.
  set (vmag := hypot3 v) in *.
  assert (Hvmag : 0 <= vmag) by apply hypot3_nonneg.
  rewrite (Rmax_right 0 (vmag * vmag - v_rad * v_rad)) by lra.
  eexists. split; [reflexivity |].
  cbn [sk_rmag sk_pos_err sk_v_tan sk_v_rad sk_v_tan_err sk_v_circ].
  assert (Hsq : sqrt (vmag * vmag - v_rad * v_rad) * sqrt (vmag * vmag - v_rad * v_rad) =
                vmag * vmag - v_rad * v_rad) by (apply sqrt_sqrt; lra).
  pose proof (sqrt_pos (vmag * vmag - v_rad * v_rad)) as Hpos.
  set (v_tan := sqrt (vmag * vmag - v_rad * v_rad)) in *.
  split_conj.
  - reflexivity.
  - reflexivity.
  - exact Hpos.
  - lra.
  - apply Rabs_le. split; nra.
  - nra.
  - reflexivity.
  - apply v_circ_positive.
Qed.

(** X10: the guards of [stationKeepingErrors]. Without a frame the result is
    [null]. At the origin nothing is divided by zero: [rmag = 0],
    [v_rad = 0], [v_tan = |v|] and [pos_err = - R0]. For a target radius of
    at most [1e-9], zero and negative ones included, the reference speed is
    [sqrt (1 / 1e-9)]. *)
Theorem stationKeepingErrors_guards (v : vec3) (R0 : R)
    (th : option vec3) (rw pe ve : option R) :
  stationKeepingErrors None R0 = None /\
  (exists er,
     stationKeepingErrors (Some (Frame (0, 0, 0) v th rw pe ve)) R0 = Some er /\
     sk_rmag er = 0 /\ sk_v_rad er = 0 /\ sk_v_tan er = hypot3 v /\
     sk_pos_err er = - R0) /\
  (R0 <= 1e-9 ->
   forall f er, stationKeepingErrors (Some f) R0 = Some er ->
     sk_v_circ er = sqrt (1.0 / 1e-9)).
Proof.
  split_conj.
  - reflexivity.
  - unfold stationKeepingErrors. cbn [f_r f_v].
    rewrite (proj2 (hypot3_zero_iff 0 0 0)) by (split_conj; reflexivity).
    eexists. split; [reflexivity |].
    cbn [sk_rmag sk_pos_err sk_v_tan sk_v_rad].
    assert (Hrad : dot3 v (0 / (0 + 1e-9), 0 / (0 + 1e-9), 0 / (0 + 1e-9)) = 0)
      by (destruct v as [[v0 v1] v2]; unfold dot3, Rdiv; ring).
    rewrite Hrad.
    pose proof (hypot3_nonneg v) as Hv.
    split_conj; try reflexivity.
    + rewrite Rmax_right by nra.
      replace (hypot3 v * hypot3 v - 0 * 0) with (hypot3 v * hypot3 v) by ring.
      now apply sqrt_square.
    + ring.
  - intros HR0 f er Her. destruct f as [[[r0 r1] r2] v' th' rw' pe' ve'].
    unfold stationKeepingErrors in Her. cbn [f_r f_v] in Her.
    injection Her as <-. cbn [sk_v_circ]. now rewrite Rmax_left.
Qed.

Lemma stationKeepingErrors_guards_witness :
  exists er, stationKeepingErrors (Some circ_frame) 0 = Some er /\
             sk_v_circ er = sqrt (1.0 / 1e-9).
Proof.
  destruct (stationKeepingErrors_components circ_frame 0) as (er & Her & _).
  exists er. split; [exact Her |].
  destruct (stationKeepingErrors_guards (0, 1, 0) 0 None None None None)
    as (_ & _ & H).
  apply (H ltac:(lra) circ_frame er Her).
Defined.

(** X11: a frame on a circular orbit of the target radius, that is
    [|r| = R0 >= 1e-9], [r . v = 0] and [|v|^2 R0 = 1], has no error:
    [pos_err = 0], [v_rad = 0] and [v_tan_err = 0]. *)
Theorem stationKeepingErrors_circular (f : frame) (R0 : R)
    (HR0 : 1e-9 <= R0) (Hr : hypot3 (f_r f) = R0) (Hperp : dot3 (f_v f) (f_r f) = 0)
    (Hspeed : hypot3 (f_v f) * hypot3 (f_v f) * R0 = 1) :
  exists er,
    stationKeepingErrors (Some f) R0 = Some er /\
    sk_pos_err er = 0 /\ sk_v_rad er = 0 /\ sk_v_tan_err er = 0.
Proof.
  destruct f as [[[r0 r1] r2] [[v0 v1] v2] th rw pe ve]. cbn [f_r f_v] in *.
  unfold stationKeepingErrors. cbn [f_r f_v]. rewrite Hr.
  assert (Hrad : dot3 (v0, v1, v2) (r0 / (R0 + 1e-9), r1 / (R0 + 1e-9), r2 / (R0 + 1e-9)) = 0).
  { transitivity ((v0 * r0 + v1 * r1 + v2 * r2) * / (R0 + 1e-9));
      [unfold dot3, Rdiv; ring |].
    unfold dot3 in Hperp. rewrite Hperp. ring. }
  rewrite Hrad.
  pose proof (hypot3_nonneg (v0, v1, v2)) as Hv.
  set (vmag := hypot3 (v0, v1, v2)) in *.
  eexists. split; [reflexivity |].
  cbn [sk_pos_err sk_v_rad sk_v_tan_err]. split_conj.
  - ring.
  - reflexivity.
  - rewrite (Rmax_right 0) by nra. rewrite (Rmax_right 1e-9) by lra.
    replace (vmag * vmag - 0 * 0) with (vmag * vmag) by ring.
    rewrite sqrt_square by exact Hv.
    replace 1.0 with 1 by lra.
    assert (Hvv : 1 / R0 = vmag * vmag).
    { apply Rmult_eq_reg_r with R0; [rewrite Hspeed; field; lra | lra]. }
    rewrite Hvv, sqrt_square by exact Hv. ring.
Qed.

Lemma stationKeepingErrors_circular_witness :
  exists er,
    stationKeepingErrors (Some circ_frame) 1 = Some er /\
    sk_pos_err er = 0 /\ sk_v_rad er = 0 /\ sk_v_tan_err er = 0.
Proof.
  apply (stationKeepingErrors_circular circ_frame 1).
  - lra.
  - cbn [f_r circ_frame]. apply hypot3_axis. lra.
  - cbn. ring.
  - cbn [f_v circ_frame]. rewrite hypot3_unit_y. ring.
Defined.

End StationFacts.

(** ** More on the rollout pass: bounds, sparklines, timeline *)

Module AnalyticsMore.
Import Analytics AnalyticsFacts OrbitFacts Series.

Lemma indexed_snoc ys : forall idx0 y,
  indexed idx0 (ys ++ [y]) = indexed idx0 ys ++ [Point (idx0 + Z.of_nat (length ys)) y].
Proof.
  induction ys as [| a ys IH]; intros idx0 y.
  - cbn. now rewrite Z.add_0_r.
  - cbn [app indexed length]. rewrite IH.
    replace (idx0 + 1 + Z.of_nat (length ys))%Z
      with (idx0 + Z.of_nat (S (length ys)))%Z by lia.
    reflexivity.
Qed.

Lemma indexed_ys ys : forall idx0, map pt_y (indexed idx0 ys) = ys.
Proof.
  induction ys as [| a ys IH]; intros idx0; [reflexivity |].
  cbn [indexed map pt_y]. now rewrite IH.
Qed.

Lemma indexed_length ys : forall idx0, length (indexed idx0 ys) = length ys.
Proof.
  induction ys as [| a ys IH]; intros idx0; [reflexivity |].
  cbn [indexed length]. now rewrite IH.
Qed.

Lemma indexed_nth ys : forall idx0 k pt,
  nth_error (indexed idx0 ys) k = Some pt ->
  pt_x pt = (idx0 + Z.of_nat k)%Z /\ nth_error ys k = Some (pt_y pt).
Proof.
  induction ys as [| a ys IH]; intros idx0 [| k] pt H; try discriminate.
  - cbn in H. injection H as <-. cbn. split; [lia | reflexivity].
  - cbn [indexed nth_error] in H. apply IH in H. destruct H as [Hx Hy].
    split; [lia | exact Hy].
Qed.

Lemma thrust_events_no_other idx0 l :
  filter (fun ev => negb (is_thrust ev)) (thrust_events idx0 l) = [].
Proof.
  revert idx0. induction l as [| b l IH]; intros idx0; [reflexivity |].
  cbn [thrust_events]. rewrite filter_app, IH. now destruct b.
Qed.

Lemma thrust_events_count idx0 l :
  length (thrust_events idx0 l) = length (filter (fun b : bool => b) l).
Proof.
  revert idx0. induction l as [| b l IH]; intros idx0; [reflexivity |].
  cbn [thrust_events filter]. rewrite length_app, IH. now destruct b.
Qed.

Lemma thr_of_nonneg f : 0 <= thr_of f.
Proof. unfold thr_of. destruct (f_thrust f); [apply hypot3_nonneg | lra]. Qed.

Section Pass.

Variables tolR tolV thrustSpike : R.

Local Abbreviation body := (body tolR tolV thrustSpike).
Local Abbreviation run := (run tolR tolV thrustSpike).
Local Abbreviation observe := (observe tolR tolV thrustSpike).
Local Abbreviation inTol := (inTol tolR tolV).
Local Abbreviation spike := (spike thrustSpike).
Local Abbreviation episode_metrics := (episode_metrics tolR tolV thrustSpike).

(** Where a capture can be: behind an out-of-tolerance frame, followed by
    [K] frames in tolerance. *)
Lemma captured_position frames c :
  m_capturedAt (episode_metrics frames) = Some c ->
  exists s : nat,
    c = Z.of_nat s /\ (1 <= s)%nat /\ (s + K_nat <= length frames)%nat /\
    nth_error (map inTol frames) (s - 1) = Some false /\
    (forall j, (s <= j < s + K_nat)%nat -> nth_error (map inTol frames) j = Some true).
Proof.
  intros Hc. rewrite capturedAt_metrics in Hc.
  destruct (capture_inv_frames tolR tolV thrustSpike frames) as (_ & _ & Hcap).
  rewrite Hc in Hcap. destruct Hcap as (idx & Hq & Hfirst & ->).
  pose proof (qualifies_lt _ _ Hq) as Hidx. rewrite length_map in Hidx.
  destruct Hq as (HK & Hin & j & Hj & Hout). unfold_K.
  exists (idx + 1 - 30)%nat. split_conj.
  - lia.
  - lia.
  - lia.
  - replace (idx + 1 - 30 - 1)%nat with (idx - 30)%nat by lia.
    destruct (nth_error (map inTol frames) (idx - 30)) as [[|] |] eqn:Hb.
    + exfalso. apply (Hfirst (idx - 1)%nat); [lia |].
      unfold qualifies. unfold_K. split_conj.
      * lia.
      * intros i Hi. destruct (Nat.eq_dec i (idx - 30)) as [-> | Hne]; [exact Hb |].
        apply Hin. lia.
      * exists j. split; [| exact Hout].
        destruct (Nat.eq_dec j (idx - 30)) as [-> | Hne]; [congruence | lia].
    + reflexivity.
    + apply nth_error_None in Hb. rewrite length_map in Hb. lia.
  - intros i Hi. apply Hin. lia.
Qed.

Lemma events_in_range frames ev :
  In ev (m_events (episode_metrics frames)) ->
  (0 <= ev_t ev < Z.of_nat (length frames))%Z.
Proof.
  intros Hin.
  destruct (m_capturedAt (episode_metrics frames)) as [c |] eqn:Hc.
  - destruct (captured_position frames c Hc) as (s & -> & Hs1 & Hs2 & _).
    destruct (events_layout tolR tolV thrustSpike frames _ Hc)
      as (pre & post & Hsp & Hlen & _ & _ & Hev).
    assert (Hn : length frames = (length pre + length post)%nat)
      by (rewrite <- (length_map spike frames), Hsp; apply length_app).
    rewrite Hev, !in_app_iff in Hin. unfold_K.
    destruct Hin as [Hin | [[<- | []] | Hin]].
    + apply thrust_events_bounds in Hin. lia.
    + cbn [ev_t]. lia.
    + apply thrust_events_bounds in Hin. lia.
  - rewrite events_metrics in Hin. rewrite capturedAt_metrics in Hc.
    pose proof (events_inv_run (map observe frames)) as Hinv.
    unfold events_inv in Hinv. rewrite Hc in Hinv. rewrite Hinv in Hin.
    apply thrust_events_bounds in Hin. rewrite !length_map in Hin. lia.
Qed.

Lemma sparkOf_body st f idx :
  sparkOf (body st f idx) =
  Spark (sp_reward (sparkOf st) ++ [Point idx (nullish (f_reward f) 0)])
        (sp_fuel (sparkOf st) ++ [Point idx (thr_of f)])
        (sp_posErr (sparkOf st) ++ [Point idx (posErr_of f)])
        (sp_vTanErr (sparkOf st) ++ [Point idx (vtanErr_of f)]).
Proof.
  unfold Analytics.body. destruct (Analytics.inTol tolR tolV f); [| reflexivity].
  destruct (capturedAt st); [reflexivity |].
  destruct (seenOut st && _); reflexivity.
Qed.

Lemma sparkOf_run frames :
  sparkOf (run frames) =
  Spark (indexed 0 (map (fun f => nullish (f_reward f) 0) frames))
        (indexed 0 (map thr_of frames))
        (indexed 0 (map posErr_of frames))
        (indexed 0 (map vtanErr_of frames)).
Proof.
  induction frames as [| f frames IH] using rev_ind; [reflexivity |].
  rewrite run_snoc, sparkOf_body, IH, !map_app. cbn [map sp_reward sp_fuel sp_posErr sp_vTanErr].
  rewrite !indexed_snoc, !length_map. reflexivity.
Qed.

Lemma fuel_covers_spikes frames :
  0 <= thrustSpike ->
  INR (length (filter spike frames)) * thrustSpike <= Rsum (map thr_of frames).
Proof.
  intros Hthr. induction frames as [| f frames IH]; [cbn; lra |].
  cbn [filter map Rsum fold_right]. fold (Rsum (map thr_of frames)).
  pose proof (thr_of_nonneg f) as Hf.
  destruct (spike f) eqn:Hsp.
  - apply Rgt_b_true in Hsp. cbn [length]. rewrite S_INR. nra.
  - lra.
Qed.

(** X12: every event of an episode bears the index of one of its frames,
    [0 <= t < len]; the events other than thrust events are the single
    [entered_tol] event of index [capturedAt] when there is a capture, and
    none otherwise. *)
Theorem events_are_frame_indices (frames : list frame) :
  let m := episode_metrics frames in
  (forall ev, In ev (m_events m) -> (0 <= ev_t ev < m_len m)%Z) /\
  filter (fun ev => negb (is_thrust ev)) (m_events m) =
    match m_capturedAt m with
    | Some c => [Event c entered_tol]
    | None => []
    end.
Proof.
  intros m. subst m. split.
  - intros ev Hin. now apply events_in_range.
  - destruct (m_capturedAt (episode_metrics frames)) as [c |] eqn:Hc.
    + destruct (events_layout tolR tolV thrustSpike frames _ Hc)
        as (pre & post & _ & _ & _ & _ & Hev).
      rewrite Hev, !filter_app, !thrust_events_no_other. reflexivity.
    + rewrite events_metrics. rewrite capturedAt_metrics in Hc.
      pose proof (events_inv_run (map observe frames)) as Hinv.
      unfold events_inv in Hinv. rewrite Hc in Hinv.
      rewrite Hinv. apply thrust_events_no_other.
Qed.

(** X13: a capture is never reported for an episode of at most [K = 30]
    frames. When [capturedAt = c], then [c >= 1], the [K] frames from [c]
    on exist and are in tolerance, and frame [c - 1] is out of tolerance. *)
Theorem capturedAt_needs_room (frames : list frame) :
  let m := episode_metrics frames in
  ((m_len m <= K)%Z -> m_capturedAt m = None) /\
  (forall c, m_capturedAt m = Some c ->
     (1 <= c)%Z /\ (c + K <= m_len m)%Z /\
     (exists f, nth_error frames (Z.to_nat (c - 1)) = Some f /\ inTol f = false) /\
     (forall j f, (c <= Z.of_nat j < c + K)%Z ->
        nth_error frames j = Some f -> inTol f = true)).
Proof.
  intros m. subst m. split.
  - intros Hlen. destruct (m_capturedAt (episode_metrics frames)) as [c |] eqn:Hc;
      [| reflexivity].
    destruct (captured_position frames c Hc) as (s & _ & Hs1 & Hs2 & _).
    cbn [m_len Analytics.episode_metrics] in Hlen. unfold_K. lia.
  - intros c Hc.
    destruct (captured_position frames c Hc) as (s & -> & Hs1 & Hs2 & Hout & Hin).
    cbn [m_len Analytics.episode_metrics]. unfold_K. split_conj.
    + lia.
    + lia.
    + replace (Z.to_nat (Z.of_nat s - 1)) with (s - 1)%nat by lia.
      rewrite nth_error_map in Hout.
      destruct (nth_error frames (s - 1)) as [f |]; [| discriminate].
      exists f. split; [reflexivity |]. cbn in Hout. congruence.
    + intros j f Hj Hf. specialize (Hin j ltac:(lia)).
      rewrite nth_error_map, Hf in Hin. cbn in Hin. congruence.
Qed.

(** X14: each of the four sparklines has one point per frame, in frame
    order, with [x] the frame index and [y] the reward, the thrust
    magnitude, the position error and the tangential error of that frame;
    the [y] of the reward and fuel sparklines add up to [rewardSum] and
    [fuelSum]. *)
Theorem sparklines_follow_frames (frames : list frame) :
  let m := episode_metrics frames in
  m_spark m =
    Spark (indexed 0 (map (fun f => nullish (f_reward f) 0) frames))
          (indexed 0 (map thr_of frames))
          (indexed 0 (map posErr_of frames))
          (indexed 0 (map vtanErr_of frames)) /\
  length (sp_reward (m_spark m)) = length frames /\
  length (sp_fuel (m_spark m)) = length frames /\
  length (sp_posErr (m_spark m)) = length frames /\
  length (sp_vTanErr (m_spark m)) = length frames /\
  (forall k pt, nth_error (sp_fuel (m_spark m)) k = Some pt ->
     pt_x pt = Z.of_nat k /\ option_map thr_of (nth_error frames k) = Some (pt_y pt)) /\
  Rsum (map pt_y (sp_reward (m_spark m))) = m_rewardSum m /\
  Rsum (map pt_y (sp_fuel (m_spark m))) = m_fuelSum m.
Proof.
  intros m. subst m.
  assert (Hsp : m_spark (episode_metrics frames) = sparkOf (run frames)) by reflexivity.
  rewrite Hsp, sparkOf_run. cbn [sp_reward sp_fuel sp_posErr sp_vTanErr].
  rewrite !indexed_length, !length_map, !indexed_ys. split_conj; try reflexivity.
  - intros k pt Hk. apply indexed_nth in Hk. destruct Hk as [Hx Hy].
    split; [lia |]. rewrite <- nth_error_map. exact Hy.
  - symmetry. apply rewardSum_run.
  - symmetry. apply fuelSum_run.
Qed.

(** X15: [fuelSum] is never negative, and for a threshold that is not
    negative it is at least the threshold times the number of thrust
    events. *)
Theorem fuelSum_covers_thrust_events (frames : list frame) (Hthr : 0 <= thrustSpike) :
  let m := episode_metrics frames in
  0 <= m_fuelSum m /\
  INR (length (filter is_thrust (m_events m))) * thrustSpike <= m_fuelSum m.
Proof.
  intros m. subst m.
  assert (Hsum : m_fuelSum (episode_metrics frames) = Rsum (map thr_of frames))
    by apply fuelSum_run.
  pose proof (fuel_covers_spikes frames Hthr) as Hcov.
  assert (Hcount : length (filter is_thrust (m_events (episode_metrics frames))) =
                   length (filter spike frames)).
  { rewrite events_metrics, thrust_events_run, map_spike_observe, thrust_events_count.
    clear. induction frames as [| f frames IH]; [reflexivity |].
    cbn [map filter]. destruct (spike f); cbn [length]; now rewrite IH. }
  rewrite Hsum, Hcount. split; [| exact Hcov].
  apply Rle_trans with (INR (length (filter spike frames)) * thrustSpike); [| exact Hcov].
  apply Rmult_le_pos; [apply pos_INR | exact Hthr].
Qed.

End Pass.

Lemma fuelSum_covers_thrust_events_witness :
  0 <= m_fuelSum (Analytics.episode_metrics default_tolR default_tolV 0.02
                    [burn_frame; coast_frame]).
Proof.
  assert (H : 0 <= 0.02) by lra.
  apply (fuelSum_covers_thrust_events default_tolR default_tolV 0.02
           [burn_frame; coast_frame] H).
Defined.

End AnalyticsMore.

(** ** Playback, timeline and scene helpers *)

Module PlaybackFacts.
Import Analytics AnalyticsFacts AnalyticsMore Scene Playback.

Lemma js_floor_bounds x : IZR (js_floor x) <= x < IZR (js_floor x) + 1.
Proof. unfold js_floor. destruct (base_Int_part x). lra. Qed.

Lemma js_floor_range x (n : Z) :
  0 <= x <= IZR n - 1 -> (0 <= js_floor x <= n - 1)%Z.
Proof.
  intros [Hlo Hhi]. destruct (js_floor_bounds x) as [H1 H2]. split.
  - assert (Hgt : (-1 < js_floor x)%Z) by (apply lt_IZR; lra). lia.
  - apply le_IZR. rewrite minus_IZR. lra.
Qed.

Lemma js_floor_IZR (k : Z) : js_floor (IZR k) = k.
Proof.
  unfold js_floor. symmetry. apply Int_part_spec. split; lra.
Qed.

Lemma js_nth_in_range {A : Type} (l : list A) (k : Z) :
  (0 <= k < Z.of_nat (length l))%Z -> exists a, js_nth l k = Some a.
Proof.
  intros Hk. unfold js_nth. destruct (Z.ltb_spec k 0) as [Hneg | _]; [lia |].
  destruct (nth_error l (Z.to_nat k)) as [a |] eqn:Ha; [now exists a |].
  apply nth_error_None in Ha. lia.
Qed.

Lemma js_nth_outside {A : Type} (l : list A) (k : Z) :
  (k < 0 \/ Z.of_nat (length l) <= k)%Z -> js_nth l k = None.
Proof.
  intros Hk. unfold js_nth. destruct (Z.ltb_spec k 0) as [_ | Hpos]; [reflexivity |].
  apply nth_error_None. lia.
Qed.

Lemma pct_range max t : 0 <= t <= max -> 0 <= pct max t <= 100.
Proof.
  intros [Hlo Hhi]. unfold pct. unfold Rlt_b.
  destruct (Rlt_dec 0 max) as [Hmax | _]; [| lra].
  assert (Hq : 0 <= t / max <= 1).
  { split.
    - apply Rmult_le_pos; [exact Hlo | left; now apply Rinv_0_lt_compat].
    - apply Rmult_le_reg_r with max; [exact Hmax |].
      replace (t / max * max) with t by (field; lra). lra. }
  lra.
Qed.

Lemma step_keeps_range (len : Z) evs i a :
  (1 <= len)%Z ->
  (forall ev, In ev evs -> (0 <= ev_t ev < len)%Z) ->
  allowed evs a -> 0 <= i <= IZR len - 1 -> 0 <= step len i a <= IZR len - 1.
Proof.
  intros Hlen Hevs Ha Hi.
  assert (Hn : 0 <= IZR len - 1) by (apply IZR_le in Hlen; lra).
  destruct a as [playing dt speed | | | ev |]; cbn [step allowed] in *.
  - unfold tick_frameIdx. destruct (playing && (0 <? len)%Z); [| exact Hi].
    destruct Ha as [Hdt Hsp].
    assert (Hinc : 0 <= dt * 60 * speed) by nra.
    split; [apply Rmin_glb; lra | apply Rmin_l].
  - unfold arrowright, num_or.
    assert (Hor : IZR (if (len - 1 =? 0)%Z then 0%Z else (len - 1)%Z) = IZR len - 1).
    { destruct (Z.eqb_spec (len - 1) 0) as [H0 | Hne].
      - replace len with 1%Z by lia. simpl. lra.
      - apply minus_IZR. }
    rewrite Hor.
    pose proof (js_floor_range i len Hi) as [Hf _]. apply IZR_le in Hf.
    split; [apply Rmin_glb; lra | apply Rmin_l].
  - unfold arrowleft. destruct (js_floor_bounds i) as [Hf _].
    split; [apply Rmax_l | apply Rmax_lub; lra].
  - specialize (Hevs ev Ha). destruct Hevs as [H0 H1].
    apply IZR_le in H0. assert (H1' : (ev_t ev <= len - 1)%Z) by lia.
    apply IZR_le in H1'. rewrite minus_IZR in H1'. lra.
  - lra.
Qed.

Lemma steps_keep_range (len : Z) evs acts : forall i,
  (1 <= len)%Z ->
  (forall ev, In ev evs -> (0 <= ev_t ev < len)%Z) ->
  Forall (allowed evs) acts -> 0 <= i <= IZR len - 1 ->
  0 <= steps len i acts <= IZR len - 1.
Proof.
  induction acts as [| a acts IH]; intros i Hlen Hevs Hall Hi; [exact Hi |].
  apply Forall_cons_iff in Hall. destruct Hall as [Ha Hall].
  cbn [steps fold_left]. apply (IH (step len i a)); try assumption.
  now apply (step_keeps_range len evs).
Qed.

(** X16: on the timeline of an episode every event marker lies on the
    track: with [max = Math.max(0, len - 1)], the position [pct(ev.t)] of
    each event of the episode is between 0 and 100 per cent. *)
Theorem timeline_markers_on_track (tolR tolV thrustSpike : R) (frames : list frame)
    (ev : event)
    (Hev : In ev (m_events (episode_metrics tolR tolV thrustSpike frames))) :
  0 <= pct (timeline_max frames) (IZR (ev_t ev)) <= 100.
Proof.
  apply events_in_range in Hev. destruct Hev as [H0 H1].
  apply pct_range. unfold timeline_max.
  apply IZR_le in H0.
  assert (H1' : (ev_t ev <= Z.of_nat (length frames) - 1)%Z) by lia.
  apply IZR_le in H1'. rewrite minus_IZR in H1'.
  split; [exact H0 |].
  apply Rle_trans with (IZR (Z.of_nat (length frames)) - 1); [exact H1' | apply Rmax_r].
Qed.

Lemma timeline_markers_on_track_witness :
  0 <= pct (timeline_max late_burn) (IZR 30) <= 100.
Proof.
  apply (timeline_markers_on_track default_tolR default_tolV default_thrustSpike
           late_burn (Event 30 thrust)).
  rewrite events_late_burn. left. reflexivity.
Defined.

(** X17: on a non-empty episode the frame index stays a valid position
    whatever the user does: starting in [0, len - 1], any sequence of
    ticks, arrow keys, clicks on the episode's event markers and resets
    leaves [frameIdx] in [0, len - 1], so that the current frame and the
    previous frame are always defined. *)
Theorem frameIdx_stays_valid (tolR tolV thrustSpike : R) (frames : list frame)
    (acts : list action) (i : R)
    (Hne : frames <> [])
    (Hi : 0 <= i <= IZR (Z.of_nat (length frames)) - 1)
    (Hacts : Forall (allowed (m_events (episode_metrics tolR tolV thrustSpike frames))) acts) :
  let i' := steps (Z.of_nat (length frames)) i acts in
  0 <= i' <= IZR (Z.of_nat (length frames)) - 1 /\
  (exists f, current_frame frames i' = Some f) /\
  (exists f, prev_frame frames i' = Some f).
Proof.
  intros i'.
  assert (Hlen : (1 <= Z.of_nat (length frames))%Z)
    by (destruct frames; [congruence | cbn [length]; lia]).
  assert (Hr : 0 <= i' <= IZR (Z.of_nat (length frames)) - 1).
  { subst i'.
    apply (steps_keep_range _ (m_events (episode_metrics tolR tolV thrustSpike frames)));
      try assumption.
    intros ev Hev. now apply events_in_range in Hev. }
  pose proof (js_floor_range i' _ Hr) as Hf.
  split_conj.
  - apply Hr.
  - apply Hr.
  - unfold current_frame. apply js_nth_in_range. lia.
  - unfold prev_frame. apply js_nth_in_range. lia.
Qed.

Lemma frameIdx_stays_valid_witness :
  exists f,
    current_frame late_burn
      (steps (Z.of_nat (length late_burn)) 0
         [Tick true 0.5 1; ArrowRight; Marker (Event 30 thrust); ArrowLeft]) = Some f.
Proof.
  assert (Hne : late_burn <> []) by discriminate.
  assert (Hi : 0 <= 0 <= IZR (Z.of_nat (length late_burn)) - 1)
    by (replace (Z.of_nat (length late_burn)) with 31%Z by reflexivity; lra).
  assert (Hacts : Forall (allowed (m_events (episode_metrics default_tolR default_tolV
                                               default_thrustSpike late_burn)))
                    [Tick true 0.5 1; ArrowRight; Marker (Event 30 thrust); ArrowLeft]).
  { rewrite events_late_burn. repeat constructor; cbn; lra. }
  apply (frameIdx_stays_valid default_tolR default_tolV default_thrustSpike late_burn
           _ 0 Hne Hi Hacts).
Defined.

(** X18: the arrow keys on a whole frame index [k] of an episode of [len]
    frames. For [len >= 1] and [0 <= k <= len - 1], the right arrow gives
    [min (len - 1) (k + 1)] and the left arrow [max 0 (k - 1)], so the left
    arrow undoes the right arrow below the last frame. On an empty episode
    the right arrow gives [-1]: the guard [(frames.length-1)||0] only
    replaces the bound 0 by 0. *)
Theorem arrow_keys_on_frames (len k : Z) :
  ((1 <= len)%Z -> (0 <= k <= len - 1)%Z ->
   arrowright len (IZR k) = IZR (Z.min (len - 1) (k + 1)) /\
   arrowleft (IZR k) = IZR (Z.max 0 (k - 1)) /\
   ((k < len - 1)%Z -> arrowleft (arrowright len (IZR k)) = IZR k)) /\
  ((-2 <= k)%Z -> arrowright 0 (IZR k) = -1).
Proof.
  assert (Hmin : forall a b, Rmin (IZR a) (IZR b) = IZR (Z.min a b)).
  { intros a b. destruct (Z.le_gt_cases a b) as [H | H].
    - rewrite Z.min_l by exact H. apply Rmin_left. now apply IZR_le.
    - rewrite Z.min_r by lia. apply Rmin_right. apply IZR_le. lia. }
  assert (Hmax : forall a b, Rmax (IZR a) (IZR b) = IZR (Z.max a b)).
  { intros a b. destruct (Z.le_gt_cases a b) as [H | H].
    - rewrite Z.max_r by exact H. apply Rmax_right. now apply IZR_le.
    - rewrite Z.max_l by lia. apply Rmax_left. apply IZR_le. lia. }
  assert (Hright : forall n j, (1 <= n)%Z ->
            arrowright n (IZR j) = IZR (Z.min (n - 1) (j + 1))).
  { intros n j Hn. unfold arrowright, num_or. rewrite js_floor_IZR.
    replace (IZR j + 1) with (IZR (j + 1)) by (rewrite plus_IZR; reflexivity).
    rewrite Hmin. destruct (Z.eqb_spec (n - 1) 0) as [H0 | _]; [| reflexivity].
    now rewrite H0. }
  assert (Hleft : forall j, arrowleft (IZR j) = IZR (Z.max 0 (j - 1))).
  { intros j. unfold arrowleft. rewrite js_floor_IZR.
    replace (IZR j - 1) with (IZR (j - 1)) by (rewrite minus_IZR; reflexivity).
    apply Hmax. }
  split.
  - intros Hlen Hk. split_conj.
    + now apply Hright.
    + apply Hleft.
    + intros Hlt. rewrite Hright by exact Hlen. rewrite Hleft. f_equal. lia.
  - intros Hk. unfold arrowright, num_or. cbn [Z.sub Z.add Z.opp Z.eqb Z.pos_sub].
    rewrite js_floor_IZR. apply Rmin_left. apply IZR_le in Hk. lra.
Qed.

Lemma arrow_keys_on_frames_witness :
  arrowright 100 (IZR 99) = IZR 99 /\ arrowleft (IZR 0) = IZR 0 /\
  arrowright 0 (IZR 0) = -1.
Proof.
  destruct (arrow_keys_on_frames 100 99) as [H _].
  destruct (H ltac:(lia) ltac:(lia)) as (Hr & _ & _).
  destruct (arrow_keys_on_frames 100 0) as [H0 Hempty].
  destruct (H0 ltac:(lia) ltac:(lia)) as (_ & Hl & _).
  split_conj; [exact Hr | exact Hl | apply Hempty; lia].
Defined.

End PlaybackFacts.

(** ** The scene: current frame, trail and thrust arrow *)

Module SceneFacts.
Import Analytics AnalyticsFacts OrbitFacts Scene PlaybackFacts.

Lemma sampled_snoc frames every pts f :
  sampled frames every pts ->
  js_nth frames (Z.of_nat (length pts) * every) = Some f ->
  sampled frames every (pts ++ [f_r f]).
Proof.
  intros Hs Hf k r Hk. rewrite nth_error_snoc in Hk.
  destruct (Nat.ltb_spec k (length pts)) as [Hlt | Hge]; [now apply Hs |].
  destruct (Nat.eqb_spec k (length pts)) as [-> | Hne]; [| discriminate].
  injection Hk as <-. now exists f.
Qed.

Lemma trail_loop_forward frames every maxPoints (Hevery : (1 <= every)%Z) :
  forall fuel pts,
    (Z.max 0 (Z.of_nat (length frames) - Z.of_nat (length pts) * every) <
     Z.of_nat fuel)%Z ->
    (Z.of_nat (length pts) < maxPoints \/ pts = [])%Z ->
    sampled frames every pts ->
    exists out,
      trail_loop fuel frames every maxPoints (Z.of_nat (length pts) * every) pts =
        Returned out /\
      sampled frames every out /\
      (Z.of_nat (length out) <= Z.max 1 maxPoints)%Z /\
      ((Z.of_nat (length out) < maxPoints)%Z ->
       (Z.of_nat (length frames) <= Z.of_nat (length out) * every)%Z).
Proof.
  induction fuel as [| fuel IH]; intros pts Hfuel Hcap Hs.
  - lia.
  - cbn [trail_loop].
    assert (Hm : (Z.of_nat (length pts) <= Z.max 1 maxPoints)%Z).
    { destruct Hcap as [Hlt | ->]; [lia | cbn [length]; lia]. }
    destruct (Z.ltb_spec (Z.of_nat (length pts) * every) (Z.of_nat (length frames)))
      as [Hlt | Hge].
    + destruct (js_nth_in_range frames (Z.of_nat (length pts) * every)) as [f Hf];
        [nia |].
      rewrite Hf.
      pose proof (sampled_snoc _ _ _ _ Hs Hf) as Hs1.
      assert (Hlen1 : length (pts ++ [f_r f]) = S (length pts))
        by (rewrite length_app; cbn [length]; lia).
      destruct (Z.leb_spec maxPoints (Z.of_nat (length (pts ++ [f_r f])))) as [Hfull | Hroom].
      * exists (pts ++ [f_r f]). split_conj; [reflexivity | exact Hs1 | | lia].
        rewrite Hlen1. destruct Hcap as [Hc | ->]; [lia | cbn [length]; lia].
      * replace (Z.of_nat (length pts) * every + every)%Z
          with (Z.of_nat (length (pts ++ [f_r f])) * every)%Z by (rewrite Hlen1; lia).
        apply IH; [rewrite Hlen1; nia | now left | exact Hs1].
    + exists pts. split_conj; [reflexivity | exact Hs | exact Hm | lia].
Qed.

Lemma trail_loop_still maxPoints f0 rest :
  forall fuel m,
    (Z.max 1 maxPoints - Z.of_nat m < Z.of_nat fuel)%Z ->
    (Z.of_nat m < maxPoints \/ m = 0%nat)%Z ->
    trail_loop fuel (f0 :: rest) 0 maxPoints 0 (repeat (f_r f0) m) =
    Returned (repeat (f_r f0) (Z.to_nat (Z.max 1 maxPoints))).
Proof.
  induction fuel as [| fuel IH]; intros m Hfuel Hcap; [lia |].
  cbn [trail_loop].
  destruct (Z.ltb_spec 0 (Z.of_nat (length (f0 :: rest)))) as [_ | Hge];
    [| cbn [length] in Hge; lia].
  cbn [js_nth Z.ltb Z.compare Z.to_nat nth_error].
  replace (repeat (f_r f0) m ++ [f_r f0]) with (repeat (f_r f0) (S m))
    by (rewrite <- repeat_cons; reflexivity).
  rewrite repeat_length.
  destruct (Z.leb_spec maxPoints (Z.of_nat (S m))) as [Hfull | Hroom].
  - f_equal. f_equal. destruct Hcap as [Hc | ->]; lia.
  - rewrite Z.add_0_r. apply IH; lia.
Qed.

(** X19: [Scene3D] always finds a frame on a non-empty episode: an index
    inside the episode is used as it is, a negative one gives the first
    frame and one beyond the end gives the last frame; on an empty episode
    the frame is [null]. *)
Theorem scene_frame_clamped (frames : list frame) (frameIdx : Z) :
  let len := Z.of_nat (length frames) in
  (frames = [] -> scene_frame frames frameIdx = None) /\
  (frames <> [] ->
   (exists f, scene_frame frames frameIdx = Some f) /\
   ((0 <= frameIdx < len)%Z -> scene_frame frames frameIdx = js_nth frames frameIdx) /\
   ((frameIdx < 0)%Z -> scene_frame frames frameIdx = js_nth frames 0) /\
   ((len <= frameIdx)%Z -> scene_frame frames frameIdx = js_nth frames (len - 1))).
Proof.
  intros len. subst len. split.
  - intros ->. unfold scene_frame, clamp. cbn [length Z.of_nat].
    apply js_nth_outside. lia.
  - intros Hne.
    assert (Hlen : (1 <= Z.of_nat (length frames))%Z)
      by (destruct frames; [congruence | cbn [length]; lia]).
    unfold scene_frame, clamp. split_conj.
    + apply js_nth_in_range. lia.
    + intros H. f_equal. lia.
    + intros H. f_equal. lia.
    + intros H. f_equal. lia.
Qed.

Lemma scene_frame_clamped_witness :
  scene_frame [far_frame; circ_frame] 7 = Some circ_frame /\
  scene_frame [far_frame; circ_frame] (-3) = Some far_frame.
Proof.
  destruct (scene_frame_clamped [far_frame; circ_frame] 7) as [_ H7].
  destruct (H7 ltac:(discriminate)) as (_ & _ & _ & Hlast).
  destruct (scene_frame_clamped [far_frame; circ_frame] (-3)) as [_ H3].
  destruct (H3 ltac:(discriminate)) as (_ & _ & Hfirst & _).
  split.
  - rewrite Hlast by (cbn; lia). reflexivity.
  - rewrite Hfirst by lia. reflexivity.
Defined.

(** X20: for a stride [every >= 1] the loop of [Trail] ends normally. Point
    [k] of the trail is the position of frame [k * every]; the trail has at
    most [max 1 maxPoints] points; and when it has fewer than [maxPoints]
    points it runs to the end of the episode, [len <= n * every] for [n]
    points. An empty episode gives no point. *)
Theorem Trail_points_sampled (frames : list frame) (every maxPoints : Z)
    (Hevery : (1 <= every)%Z) :
  exists pts,
    Trail_points frames every maxPoints = Returned pts /\
    (forall k r, nth_error pts k = Some r ->
       exists f, nth_error frames (k * Z.to_nat every) = Some f /\ r = f_r f) /\
    (Z.of_nat (length pts) <= Z.max 1 maxPoints)%Z /\
    ((Z.of_nat (length pts) < maxPoints)%Z ->
     (Z.of_nat (length frames) <= Z.of_nat (length pts) * every)%Z) /\
    (frames = [] -> pts = []).
Proof.
  destruct (trail_loop_forward frames every maxPoints Hevery
              (length frames + Z.to_nat maxPoints + 2) [])
    as (out & Hout & Hs & Hcap & Hend).
  - cbn [length]. lia.
  - now right.
  - intros [| k] r Hk; discriminate.
  - exists out. split_conj.
    + exact Hout.
    + intros k r Hk. destruct (Hs k r Hk) as (f & Hf & ->). exists f.
      split; [| reflexivity]. unfold js_nth in Hf.
      destruct (Z.ltb_spec (Z.of_nat k * every) 0) as [Hneg | _]; [discriminate |].
      replace (k * Z.to_nat every)%nat with (Z.to_nat (Z.of_nat k * every)) by nia.
      exact Hf.
    + exact Hcap.
    + exact Hend.
    + intros ->. destruct out as [| r out]; [reflexivity |].
      destruct (Hs 0%nat r eq_refl) as (f & Hf & _). cbn in Hf. discriminate.
Qed.

Lemma Trail_points_sampled_witness :
  exists pts, Trail_points approach 2 2000 = Returned pts /\
              (Z.of_nat (length pts) <= 2000)%Z.
Proof.
  destruct (Trail_points_sampled approach 2 2000 ltac:(lia))
    as (pts & Hpts & _ & Hcap & _).
  exists pts. split; [exact Hpts | exact Hcap].
Defined.

(** X21: degenerate strides on a non-empty episode. With [every = 0] the
    loop does not run for ever: the test on [maxPoints] leaves it with
    [max 1 maxPoints] copies of the first position. With a negative stride
    and [maxPoints >= 2] the second round reads [frames[every].r] on
    [undefined] and throws. *)
Theorem Trail_points_degenerate (f0 : frame) (rest : list frame) (every maxPoints : Z) :
  Trail_points (f0 :: rest) 0 maxPoints =
    Returned (repeat (f_r f0) (Z.to_nat (Z.max 1 maxPoints))) /\
  ((every < 0)%Z -> (2 <= maxPoints)%Z ->
   Trail_points (f0 :: rest) every maxPoints = TypeError).
Proof.
  split.
  - unfold Trail_points.
    apply (trail_loop_still maxPoints f0 rest _ 0%nat).
    + cbn [length]. lia.
    + now right.
  - intros Hneg Hmax. unfold Trail_points.
    replace (length (f0 :: rest) + Z.to_nat maxPoints + 2)%nat
      with (S (S (length rest + Z.to_nat maxPoints + 1))) by (cbn [length]; lia).
    cbn [trail_loop].
    destruct (Z.ltb_spec 0 (Z.of_nat (length (f0 :: rest)))) as [_ | Hge];
      [| cbn [length] in Hge; lia].
    cbn [js_nth Z.ltb Z.compare Z.to_nat nth_error app length].
    destruct (Z.leb_spec maxPoints (Z.of_nat 1)) as [Hfull | _]; [lia |].
    destruct (Z.ltb_spec (0 + every) (Z.of_nat (S (length rest)))) as [_ | Hge]; [| lia].
    rewrite js_nth_outside by lia. reflexivity.
Qed.

Lemma Trail_points_degenerate_witness :
  Trail_points [far_frame; circ_frame] (-1) 2000 = TypeError.
Proof.
  apply (Trail_points_degenerate far_frame [circ_frame] (-1) 2000); lia.
Defined.

(** X22: the thrust arrow. Nothing is drawn when the frame has no thrust
    or a thrust of magnitude below [1e-8]; otherwise the arrow starts at
    the position of the frame and its length is [|baseScale * thrustScale|]
    times the thrust magnitude. *)
Theorem ThrustVector_length (f : frame) (baseScale thrustScale : R) :
  (f_thrust f = None -> ThrustVector f baseScale thrustScale = None) /\
  (forall u, f_thrust f = Some u -> hypot3 u < 1e-8 ->
     ThrustVector f baseScale thrustScale = None) /\
  (forall u, f_thrust f = Some u -> 1e-8 <= hypot3 u ->
     exists e0 e1 e2,
       ThrustVector f baseScale thrustScale = Some (f_r f, (e0, e1, e2)) /\
       let '(p0, p1, p2) := f_r f in
       hypot3 (e0 - p0, e1 - p1, e2 - p2) =
       Rabs (baseScale * thrustScale) * hypot3 u).
Proof.
  split_conj.
  - intros H. unfold ThrustVector. now rewrite H.
  - intros u Hu Hsmall. unfold ThrustVector. rewrite Hu.
    now rewrite (proj2 (Rlt_b_true _ _) Hsmall).
  - intros u Hu Hbig. unfold ThrustVector. rewrite Hu.
    rewrite (proj2 (Rlt_b_false _ _) Hbig).
    destruct (f_r f) as [[p0 p1] p2], u as [[u0 u1] u2].
    set (s := baseScale * thrustScale).
    exists (p0 + u0 * s), (p1 + u1 * s), (p2 + u2 * s). split; [reflexivity |].
    unfold hypot3.
    replace ((p0 + u0 * s - p0) * (p0 + u0 * s - p0) +
             (p1 + u1 * s - p1) * (p1 + u1 * s - p1) +
             (p2 + u2 * s - p2) * (p2 + u2 * s - p2))
      with (Rsqr s * (u0 * u0 + u1 * u1 + u2 * u2)) by (unfold Rsqr; ring).
    rewrite sqrt_mult by (try apply Rle_0_sqr; apply sum_squares_nonneg).
    now rewrite sqrt_Rsqr_abs.
Qed.

Lemma ThrustVector_length_witness :
  exists e0 e1 e2,
    ThrustVector burn_frame 2.0 50 = Some (f_r burn_frame, (e0, e1, e2)).
Proof.
  destruct (ThrustVector_length burn_frame 2.0 50) as (_ & _ & H).
  destruct (H (0.03, 0, 0) eq_refl) as (e0 & e1 & e2 & He & _).
  - rewrite hypot3_axis; lra.
  - exists e0, e1, e2. exact He.
Defined.

End SceneFacts.

(** ** The earlier rollout hook: capture at the first frame in tolerance *)

Module SimpleFacts.
Import Analytics AnalyticsFacts AnalyticsMore.

Section Pass.

Variables tolR tolV thrustSpike : R.

Local Abbreviation sbody := (Simple.body tolR tolV thrustSpike).
Local Abbreviation srun := (Simple.run tolR tolV thrustSpike).
Local Abbreviation sinTol := (Simple.inTol tolR tolV).
Local Abbreviation spike := (spike thrustSpike).
Local Abbreviation smetrics := (Simple.episode_metrics tolR tolV thrustSpike).

Lemma srun_snoc frames f :
  srun (frames ++ [f]) = sbody (srun frames) f (Z.of_nat (length frames)).
Proof. unfold Simple.run. now rewrite forEach_from_app. Qed.

Lemma s_capturedAt_body st f idx :
  Simple.capturedAt (sbody st f idx) =
  match Simple.capturedAt st with
  | Some c => Some c
  | None => if sinTol f then Some idx else None
  end.
Proof.
  unfold Simple.body. destruct (Simple.inTol tolR tolV f), (Simple.capturedAt st);
    reflexivity.
Qed.

Lemma s_events_body st f idx :
  Simple.events (sbody st f idx) =
  Simple.events st ++ (if spike f then [Event idx thrust] else []) ++
  match Simple.capturedAt st with
  | Some _ => []
  | None => if sinTol f then [Event idx entered_tol] else []
  end.
Proof.
  unfold Simple.body, Analytics.spike.
  destruct (Rgt_b (thr_of f) thrustSpike), (Simple.inTol tolR tolV f),
    (Simple.capturedAt st); cbn [Simple.events app];
    rewrite <- ?app_assoc, ?app_nil_r; reflexivity.
Qed.

Lemma s_sums_body st f idx :
  Simple.rewardSum (sbody st f idx) = Simple.rewardSum st + nullish (f_reward f) 0 /\
  Simple.fuelSum (sbody st f idx) = Simple.fuelSum st + thr_of f.
Proof.
  unfold Simple.body. destruct (Simple.inTol tolR tolV f), (Simple.capturedAt st);
    split; reflexivity.
Qed.

Lemma s_sums_run frames :
  Simple.rewardSum (srun frames) = Rsum (map (fun f => nullish (f_reward f) 0) frames) /\
  Simple.fuelSum (srun frames) = Rsum (map thr_of frames).
Proof.
  induction frames as [| f frames [IHr IHf]] using rev_ind; [split; reflexivity |].
  rewrite srun_snoc. destruct (s_sums_body (srun frames) f (Z.of_nat (length frames)))
    as [Hr Hf].
  rewrite Hr, Hf, IHr, IHf, !map_app. cbn [map]. rewrite !Rsum_snoc. split; reflexivity.
Qed.

(** The first frame in tolerance. *)
Lemma s_capturedAt_run frames :
  match Simple.capturedAt (srun frames) with
  | Some c =>
      exists k f, c = Z.of_nat k /\ nth_error frames k = Some f /\ sinTol f = true /\
        forall j g, (j < k)%nat -> nth_error frames j = Some g -> sinTol g = false
  | None => forall g, In g frames -> sinTol g = false
  end.
Proof.
  induction frames as [| f frames IH] using rev_ind.
  - cbn. intros g [].
  - rewrite srun_snoc, s_capturedAt_body.
    destruct (Simple.capturedAt (srun frames)) as [c |].
    + destruct IH as (k & g & Hc & Hk & Hin & Hbefore).
      assert (Hlt : (k < length frames)%nat) by (apply nth_error_Some; congruence).
      exists k, g. split_conj; try assumption.
      * rewrite nth_error_app1 by exact Hlt. exact Hk.
      * intros j h Hj Hh. rewrite nth_error_app1 in Hh by lia. now apply (Hbefore j).
    + destruct (sinTol f) eqn:Hf.
      * exists (length frames), f. split_conj; try reflexivity.
        -- rewrite nth_error_app2, Nat.sub_diag by lia. reflexivity.
        -- exact Hf.
        -- intros j g Hj Hg. rewrite nth_error_app1 in Hg by exact Hj.
           apply IH. now apply nth_error_In in Hg.
      * intros g Hg. apply in_app_iff in Hg. destruct Hg as [Hg | [<- | []]];
          [now apply IH | exact Hf].
Qed.

Lemma s_events_run frames :
  StronglySorted (fun a b => (ev_t a <= ev_t b)%Z) (Simple.events (srun frames)) /\
  (forall ev, In ev (Simple.events (srun frames)) ->
     (0 <= ev_t ev < Z.of_nat (length frames))%Z) /\
  filter is_thrust (Simple.events (srun frames)) = thrust_events 0 (map spike frames).
Proof.
  induction frames as [| f frames (IHs & IHr & IHt)] using rev_ind.
  - cbn. split_conj; [constructor | intros ev [] | reflexivity].
  - rewrite srun_snoc, s_events_body, length_app. cbn [length].
    set (n := length frames) in *.
    set (new := (if spike f then [Event (Z.of_nat n) thrust] else []) ++
                match Simple.capturedAt (srun frames) with
                | Some _ => []
                | None => if sinTol f then [Event (Z.of_nat n) entered_tol] else []
                end).
    assert (Hnew : forall ev, In ev new -> ev_t ev = Z.of_nat n).
    { intros ev Hev. subst new. apply in_app_iff in Hev. destruct Hev as [Hev | Hev].
      - destruct (spike f); [destruct Hev as [<- | []]; reflexivity | destruct Hev].
      - destruct (Simple.capturedAt (srun frames)); [destruct Hev |].
        destruct (sinTol f); [destruct Hev as [<- | []]; reflexivity | destruct Hev]. }
    split_conj.
    + apply sorted_app. split_conj; [exact IHs | |].
      * subst new. destruct (spike f), (Simple.capturedAt (srun frames));
          try destruct (sinTol f); cbn [app]; repeat constructor; cbn; lia.
      * intros a b Ha Hb. apply IHr in Ha. rewrite (Hnew b Hb). lia.
    + intros ev Hev. apply in_app_iff in Hev. destruct Hev as [Hev | Hev].
      * apply IHr in Hev. lia.
      * rewrite (Hnew ev Hev). lia.
    + rewrite filter_app, IHt, map_app. cbn [map].
      rewrite thrust_events_snoc, length_map. fold n. cbn [Z.add]. f_equal.
      subst new. rewrite filter_app.
      replace (filter is_thrust match Simple.capturedAt (srun frames) with
                 | Some _ => []
                 | None => if sinTol f then [Event (Z.of_nat n) entered_tol] else []
                 end) with (@nil event)
        by (destruct (Simple.capturedAt (srun frames)); [| destruct (sinTol f)];
            reflexivity).
      rewrite app_nil_r. now destruct (spike f).
Qed.

(** X23: the earlier hook reports the first frame in tolerance:
    [capturedAt] is the index of the first frame with [posErr <= tolR] and
    [|v_tan_err ?? 0| <= tolV], and [null] when no frame is in tolerance;
    its events are in ascending order of frame index, with valid indices
    (the capture is not dated back). *)
Theorem simple_capture_is_first (frames : list frame) :
  let m := smetrics frames in
  (forall c, Simple.m_capturedAt m = Some c ->
     exists k f, c = Z.of_nat k /\ nth_error frames k = Some f /\ sinTol f = true /\
       forall j g, (j < k)%nat -> nth_error frames j = Some g -> sinTol g = false) /\
  (Simple.m_capturedAt m = None <-> forall g, In g frames -> sinTol g = false) /\
  ascending (Simple.m_events m) /\
  (forall ev, In ev (Simple.m_events m) -> (0 <= ev_t ev < Simple.m_len m)%Z).
Proof.
  intros m. subst m. cbn [Simple.episode_metrics Simple.m_capturedAt Simple.m_events
                          Simple.m_len].
  pose proof (s_capturedAt_run frames) as Hcap.
  destruct (s_events_run frames) as (Hs & Hr & _).
  split_conj.
  - intros c Hc. rewrite Hc in Hcap. exact Hcap.
  - split.
    + intros Hnone. rewrite Hnone in Hcap. exact Hcap.
    + intros Hall. destruct (Simple.capturedAt (srun frames)) as [c |]; [| reflexivity].
      destruct Hcap as (k & f & _ & Hk & Hin & _).
      apply nth_error_In in Hk. rewrite (Hall f Hk) in Hin. discriminate.
  - apply ascending_iff_sorted. exact Hs.
  - exact Hr.
Qed.

(** X24: the two versions of the hook agree on [rewardSum], [fuelSum],
    [len] and the thrust events. When every frame carries a precomputed
    [v_tan_err], a capture that the debounced version reports at [c] is
    reported by the earlier version at some [c' <= c]. *)
Theorem simple_and_debounced (frames : list frame) :
  let m := episode_metrics tolR tolV thrustSpike frames in
  let m' := smetrics frames in
  Simple.m_rewardSum m' = m_rewardSum m /\
  Simple.m_fuelSum m' = m_fuelSum m /\
  Simple.m_len m' = m_len m /\
  filter is_thrust (Simple.m_events m') = filter is_thrust (m_events m) /\
  ((forall f, In f frames -> f_v_tan_err f <> None) ->
   forall c, m_capturedAt m = Some c ->
     exists c', Simple.m_capturedAt m' = Some c' /\ (c' <= c)%Z).
Proof.
  intros m m'. subst m m'.
  destruct (s_sums_run frames) as [Hr Hf].
  destruct (s_events_run frames) as (_ & _ & Ht).
  split_conj.
  - cbn [Simple.episode_metrics Simple.m_rewardSum]. rewrite Hr. symmetry.
    apply rewardSum_run.
  - cbn [Simple.episode_metrics Simple.m_fuelSum]. rewrite Hf. symmetry.
    apply fuelSum_run.
  - reflexivity.
  - cbn [Simple.episode_metrics Simple.m_events]. rewrite Ht.
    rewrite events_metrics, thrust_events_run, map_spike_observe. reflexivity.
  - intros Hpre c Hc.
    assert (Hsame : forall f, In f frames -> sinTol f = inTol tolR tolV f).
    { intros f Hf'. specialize (Hpre f Hf').
      unfold Simple.inTol, inTol, Simple.vtanErr_of, vtanErr_of.
      destruct (f_v_tan_err f); [reflexivity | congruence]. }
    destruct (captured_position tolR tolV thrustSpike frames c Hc)
      as (s & -> & Hs1 & Hs2 & _ & Hin).
    specialize (Hin s ltac:(unfold_K; lia)). rewrite nth_error_map in Hin.
    destruct (nth_error frames s) as [fs |] eqn:Hfs; [| discriminate].
    cbn in Hin. injection Hin as Hin.
    pose proof (s_capturedAt_run frames) as Hcap.
    cbn [Simple.episode_metrics Simple.m_capturedAt].
    destruct (Simple.capturedAt (srun frames)) as [c' |].
    + exists c'. split; [reflexivity |].
      destruct Hcap as (k & f & -> & _ & _ & Hbefore).
      destruct (Nat.le_gt_cases k s) as [Hle | Hgt]; [lia |].
      specialize (Hbefore s fs Hgt Hfs).
      rewrite (Hsame fs (nth_error_In _ _ Hfs)) in Hbefore. congruence.
    + specialize (Hcap fs (nth_error_In _ _ Hfs)).
      rewrite (Hsame fs (nth_error_In _ _ Hfs)) in Hcap. congruence.
Qed.

End Pass.

Lemma simple_capture_is_first_witness :
  Simple.m_capturedAt (Simple.episode_metrics default_tolR default_tolV
                         default_thrustSpike [far_frame; far_frame]) = None.
Proof.
  apply (simple_capture_is_first default_tolR default_tolV default_thrustSpike
           [far_frame; far_frame]).
  intros g [<- | [<- | []]];
    unfold Simple.inTol; apply andb_false_iff; left; apply Rle_b_false;
    unfold posErr_of, default_tolR; cbn [f_pos_err f_r far_frame nullish];
    rewrite hypot3_axis; lra.
Defined.

End SimpleFacts.

(** ** [computeMetrics] *)

Module ComputeFacts.
Import Analytics AnalyticsFacts OrbitFacts Compute.

Section Engine.

Variable cfg : config.

Local Abbreviation loop_body := (loop_body cfg).
Local Abbreviation frame_events := (frame_events cfg).
Local Abbreviation events_from := (events_from cfg).
Local Abbreviation in_tol := (in_tol cfg).
Local Abbreviation computeMetrics := (computeMetrics cfg).

Lemma loop_run frames : forall idx v_rad v_tan_err events,
  forEach_from loop_body frames idx (v_rad, v_tan_err, events) =
  (v_rad ++ map (v_rad_of) frames,
   v_tan_err ++ map (fun f => v_tan_of f - vCirc cfg) frames,
   events ++ events_from idx frames).
Proof.
  induction frames as [| f frames IH]; intros idx a b c.
  - cbn. now rewrite !app_nil_r.
  - cbn [forEach_from Compute.loop_body map Compute.events_from].
    rewrite IH, <- !app_assoc. reflexivity.
Qed.

Lemma computeMetrics_out frames :
  computeMetrics frames =
  Result (Out (map (fun f => nullish (f_reward f) 0) frames)
              (map (fuel_of) frames) (map rmag_of frames)
              (map v_rad_of frames)
              (map (fun f => v_tan_of f - vCirc cfg) frames)
              (events_from 0 frames))
         (option_map ce_i (find is_in_tol (events_from 0 frames))).
Proof. unfold Compute.computeMetrics. rewrite loop_run. reflexivity. Qed.

Lemma frame_events_index f i ev : In ev (frame_events f i) -> ce_i ev = i.
Proof.
  unfold Compute.frame_events. rewrite !in_app_iff.
  intros [H | [H | [H | H]]];
    match type of H with In _ (if ?b then _ else _) => destruct b end;
    try (destruct H as [<- | []]; reflexivity); destruct H.
Qed.

Lemma In_events_from frames : forall idx ev,
  In ev (events_from idx frames) <->
  exists k f, nth_error frames k = Some f /\ In ev (frame_events f (idx + Z.of_nat k)).
Proof.
  induction frames as [| f frames IH]; intros idx ev.
  - cbn. split; [tauto | intros ([| k] & g & Hk & _); discriminate].
  - cbn [Compute.events_from]. rewrite in_app_iff, IH. split.
    + intros [H | (k & g & Hk & Hg)].
      * exists 0%nat, f. split; [reflexivity |]. now rewrite Z.add_0_r.
      * exists (S k), g. split; [exact Hk |].
        replace (idx + Z.of_nat (S k))%Z with (idx + 1 + Z.of_nat k)%Z by lia. exact Hg.
    + intros ([| k] & g & Hk & Hg).
      * left. cbn in Hk. injection Hk as ->. now rewrite Z.add_0_r in Hg.
      * right. exists k, g. split; [exact Hk |].
        replace (idx + 1 + Z.of_nat k)%Z with (idx + Z.of_nat (S k))%Z by lia. exact Hg.
Qed.

Lemma events_from_sorted frames : forall idx,
  StronglySorted (fun a b => (ce_i a <= ce_i b)%Z) (events_from idx frames).
Proof.
  induction frames as [| f frames IH]; intros idx; [constructor |].
  cbn [Compute.events_from]. apply sorted_app. split_conj.
  - assert (Hall : forall ev, In ev (frame_events f idx) -> ce_i ev = idx)
      by (intros ev; apply frame_events_index).
    induction (frame_events f idx) as [| e l IHl]; [constructor |].
    constructor.
    + apply IHl. intros ev Hev. apply Hall. now right.
    + apply Forall_forall. intros b Hb.
      rewrite (Hall e (or_introl eq_refl)), (Hall b (or_intror Hb)). lia.
  - apply IH.
  - intros a b Ha Hb. apply frame_events_index in Ha.
    apply In_events_from in Hb. destruct Hb as (k & g & _ & Hg).
    apply frame_events_index in Hg. lia.
Qed.

Lemma find_app {A : Type} (p : A -> bool) l1 l2 :
  find p (l1 ++ l2) = match find p l1 with Some x => Some x | None => find p l2 end.
Proof.
  induction l1 as [| a l1 IH]; [reflexivity |].
  cbn [app find]. destruct (p a); [reflexivity | exact IH].
Qed.

Lemma find_frame_events f i :
  find is_in_tol (frame_events f i) =
  if in_tol f then Some (CEvent k_in_tol i None) else None.
Proof.
  unfold Compute.frame_events.
  destruct (Rgt_b (fuel_of f) (thrustTau cfg)), (Compute.in_tol cfg f),
    (Rlt_b (rmag_of f) 0.2), (Rgt_b (rmag_of f) 5.0); reflexivity.
Qed.

Lemma find_events_from frames : forall idx,
  match find is_in_tol (events_from idx frames) with
  | Some ev =>
      exists k f, ce_i ev = (idx + Z.of_nat k)%Z /\ nth_error frames k = Some f /\
        in_tol f = true /\
        forall j g, (j < k)%nat -> nth_error frames j = Some g -> in_tol g = false
  | None => forall g, In g frames -> in_tol g = false
  end.
Proof.
  induction frames as [| f frames IH]; intros idx.
  - cbn. intros g [].
  - cbn [Compute.events_from]. rewrite find_app, find_frame_events.
    destruct (in_tol f) eqn:Hf.
    + exists 0%nat, f. cbn [ce_i]. split_conj; [lia | reflexivity | exact Hf |].
      intros j g Hj. lia.
    + specialize (IH (idx + 1)%Z).
      destruct (find is_in_tol (events_from (idx + 1) frames)) as [ev |].
      * destruct IH as (k & g & Hi & Hk & Hg & Hbefore).
        exists (S k), g. split_conj; [lia | exact Hk | exact Hg |].
        intros [| j] h Hj Hh.
        -- cbn in Hh. now injection Hh as <-.
        -- apply (Hbefore j); [lia | exact Hh].
      * intros g [<- | Hg]; [exact Hf | now apply IH].
Qed.

(** X25: the events of [computeMetrics] are in ascending order of frame
    index and bear valid indices; an event of index [i] of some kind is
    present exactly when frame [i] passes the test of that kind. *)
Theorem computeMetrics_events_ascending (frames : list frame) :
  let evs := o_events (res_out (computeMetrics frames)) in
  StronglySorted (fun a b => (ce_i a <= ce_i b)%Z) evs /\
  (forall ev, In ev evs -> (0 <= ce_i ev < Z.of_nat (length frames))%Z) /\
  (forall ev, In ev evs <->
     exists k f, nth_error frames k = Some f /\ In ev (frame_events f (Z.of_nat k))).
Proof.
  intros evs. subst evs. rewrite computeMetrics_out. cbn [res_out o_events].
  split_conj.
  - apply events_from_sorted.
  - intros ev Hev. apply In_events_from in Hev. destruct Hev as (k & f & Hk & Hf).
    apply frame_events_index in Hf.
    assert (k < length frames)%nat by (apply nth_error_Some; congruence). lia.
  - intros ev. rewrite In_events_from. cbn [Z.add]. reflexivity.
Qed.

(** X26: [firstTol] is the index of the first frame that is in tolerance,
    and [null] when no frame is. *)
Theorem computeMetrics_firstTol (frames : list frame) :
  (forall i, firstTol (computeMetrics frames) = Some i ->
     exists k f, i = Z.of_nat k /\ nth_error frames k = Some f /\ in_tol f = true /\
       forall j g, (j < k)%nat -> nth_error frames j = Some g -> in_tol g = false) /\
  (firstTol (computeMetrics frames) = None <->
   forall g, In g frames -> in_tol g = false).
Proof.
  rewrite computeMetrics_out. cbn [firstTol].
  pose proof (find_events_from frames 0) as Hfind.
  destruct (find is_in_tol (events_from 0 frames)) as [ev |]; cbn [option_map].
  - destruct Hfind as (k & f & Hi & Hk & Hf & Hbefore). split.
    + intros i Hi'. injection Hi' as <-. exists k, f. split_conj; try assumption; lia.
    + split; [discriminate |]. intros Hall.
      apply nth_error_In in Hk. rewrite (Hall f Hk) in Hf. discriminate.
  - split; [discriminate |]. split; [intros _; exact Hfind | reflexivity].
Qed.

(** X27: in [computeMetrics] the tolerance test is two-sided: a frame in
    tolerance has its distance within 0.05 of [rTarget] on both sides, its
    tangential speed within 0.05 of [vCirc] and a radial speed below 0.02
    in size. No frame is both too close and escaped; for [rTarget >= 0.25]
    a frame in tolerance is not too close, and for [rTarget <= 4.95] it has
    not escaped. *)
Theorem computeMetrics_tests (f : frame) (i : Z) :
  (in_tol f = true <->
   rTarget cfg - 0.05 < rmag_of f < rTarget cfg + 0.05 /\
   Rabs (v_tan_of f - vCirc cfg) < 0.05 /\ Rabs (v_rad_of f) < 0.02) /\
  ~ (In (CEvent k_too_close i None) (frame_events f i) /\
     In (CEvent k_escape i None) (frame_events f i)) /\
  (0.25 <= rTarget cfg -> in_tol f = true ->
   ~ In (CEvent k_too_close i None) (frame_events f i)) /\
  (rTarget cfg <= 4.95 -> in_tol f = true ->
   ~ In (CEvent k_escape i None) (frame_events f i)).
Proof.
  assert (Hclose : In (CEvent k_too_close i None) (frame_events f i) -> rmag_of f < 0.2).
  { unfold Compute.frame_events. rewrite !in_app_iff. intros [H | [H | [H | H]]].
    - destruct (Rgt_b _ _); [destruct H as [H | []]; discriminate | destruct H].
    - destruct (Compute.in_tol _ _); [destruct H as [H | []]; discriminate | destruct H].
    - destruct (Rlt_b (rmag_of f) 0.2) eqn:E; [now apply Rlt_b_true | destruct H].
    - destruct (Rgt_b _ _); [destruct H as [H | []]; discriminate | destruct H]. }
  assert (Hesc : In (CEvent k_escape i None) (frame_events f i) -> 5.0 < rmag_of f).
  { unfold Compute.frame_events. rewrite !in_app_iff. intros [H | [H | [H | H]]].
    - destruct (Rgt_b _ _); [destruct H as [H | []]; discriminate | destruct H].
    - destruct (Compute.in_tol _ _); [destruct H as [H | []]; discriminate | destruct H].
    - destruct (Rlt_b _ _); [destruct H as [H | []]; discriminate | destruct H].
    - destruct (Rgt_b (rmag_of f) 5.0) eqn:E; [now apply Rgt_b_true | destruct H]. }
  assert (Htol : in_tol f = true <->
            rTarget cfg - 0.05 < rmag_of f < rTarget cfg + 0.05 /\
            Rabs (v_tan_of f - vCirc cfg) < 0.05 /\ Rabs (v_rad_of f) < 0.02).
  { unfold Compute.in_tol. rewrite !andb_true_iff, !Rlt_b_true.
    split.
    - intros [[H1 H2] H3]. apply Rabs_def2 in H1. split_conj; try assumption; lra.
    - intros ([H1 H1'] & H2 & H3). split_conj; try assumption.
      apply Rabs_def1; lra. }
  split_conj.
  - exact Htol.
  - intros [H1 H2]. apply Hclose in H1. apply Hesc in H2. lra.
  - intros HT Hin Hc. apply Hclose in Hc. apply Htol in Hin. lra.
  - intros HT Hin He. apply Hesc in He. apply Htol in Hin. lra.
Qed.

(** X28: the five arrays returned by [computeMetrics] have one entry per
    frame, in frame order: entry [k] of [reward], [fuel], [rmag], [v_rad] and
    [v_tan_err] is the reward (0 when absent), the thrust magnitude (0 when
    absent), the distance [|r|], the radial speed and the tangential error
    of frame [k]; at a position within [1e-9] of the origin the radial speed
    recorded is 0, nothing being divided by [rmag]. *)
Theorem computeMetrics_arrays (frames : list frame) :
  let o := res_out (computeMetrics frames) in
  length (o_reward o) = length frames /\
  length (o_fuel o) = length frames /\
  length (o_rmag o) = length frames /\
  length (o_v_rad o) = length frames /\
  length (o_v_tan_err o) = length frames /\
  (forall k f, nth_error frames k = Some f ->
     nth_error (o_reward o) k =
       Some (match f_reward f with Some x => x | None => 0 end) /\
     nth_error (o_fuel o) k =
       Some (match f_thrust f with Some u => hypot3 u | None => 0 end) /\
     nth_error (o_rmag o) k = Some (hypot3 (f_r f)) /\
     nth_error (o_v_rad o) k = Some (v_rad_of f) /\
     nth_error (o_v_tan_err o) k = Some (v_tan_of f - vCirc cfg) /\
     (hypot3 (f_r f) <= 1e-9 -> v_rad_of f = 0)).
Proof.
  intros o. subst o. rewrite computeMetrics_out.
  cbn [res_out o_reward o_fuel o_rmag o_v_rad o_v_tan_err].
  rewrite !length_map. split_conj; try reflexivity.
  intros k f Hk. rewrite !nth_error_map, Hk. cbn [option_map]. split_conj; try reflexivity.
  intros Hsmall. unfold v_rad_of, rhat_of, rmag_of.
  destruct (f_r f) as [[r0 r1] r2] eqn:Hr.
  rewrite (proj2 (Rgt_b_false _ _) Hsmall).
  destruct (f_v f) as [[v0 v1] v2]. cbn. ring.
Qed.

End Engine.

Lemma computeMetrics_firstTol_witness :
  firstTol (Compute.computeMetrics default_cfg [far_frame]) = None.
Proof.
  apply (computeMetrics_firstTol default_cfg [far_frame]).
  intros g [<- | []]. unfold Compute.in_tol.
  apply andb_false_iff. left. apply andb_false_iff. left.
  apply Rlt_b_false. unfold rmag_of, default_cfg.
  cbn [f_r far_frame rTarget]. rewrite hypot3_axis by lra.
  rewrite Rabs_right; lra.
Defined.

Lemma computeMetrics_tests_witness :
  ~ In (CEvent k_too_close 0 None) (Compute.frame_events default_cfg circ_frame 0).
Proof.
  destruct (computeMetrics_tests default_cfg circ_frame 0) as (Htol & _ & H & _).
  apply H.
  - cbn [rTarget default_cfg]. lra.
  - assert (Hrad : v_rad_of circ_frame = 0).
    { unfold v_rad_of, rhat_of, rmag_of. cbn [f_r f_v circ_frame].
      rewrite (hypot3_axis 1) by lra.
      rewrite (proj2 (Rgt_b_true 1 1e-9)) by lra. unfold dot3, Rdiv. ring. }
    assert (Htan : v_tan_of circ_frame = 1).
    { unfold v_tan_of. rewrite Hrad. cbn [f_v circ_frame]. rewrite hypot3_unit_y.
      rewrite Rmax_right by lra. replace (1 * 1 - 0 * 0) with 1 by ring.
      apply sqrt_1. }
    assert (Hc : vCirc default_cfg = 1).
    { unfold vCirc. cbn [rTarget default_cfg]. replace (1.0 / 1.0) with 1 by lra.
      apply sqrt_1. }
    apply Htol. rewrite Hrad, Htan, Hc. unfold rmag_of.
    cbn [rTarget default_cfg f_r circ_frame]. rewrite (hypot3_axis 1) by lra.
    replace (1 - 1) with 0 by ring. rewrite Rabs_R0. lra.
Defined.

End ComputeFacts.
